(** * collector.py: the validate / probe / fetch / extract pipeline

    A shallow embedding of [src/collector.py].  Python [str] values are
    sequences of Unicode code points and are modelled as [list N]; logging
    and network requests are recorded in a writer monad over [event]; the
    servers, the HTML parser and the Unicode tables are an explicit [World],
    and the order in which the concurrent tasks complete is an argument of
    [main].  The libraries that the source calls (re, aiohttp_retry,
    tqdm, str methods) are modelled as far as the source uses them.
    A [Logged] event is one of the program's own logging calls at info level
    or above.  The debug lines under [verbose] (lines 33, 59-60, 64-65) change
    no control flow and are left out, and so are the records that the
    libraries log themselves. *)

From Stdlib Require Import String Ascii NArith ZArith List Bool Lia.
From stdpp Require Import list sorting.

Local Open Scope N_scope.

(** ** Strings *)

Abbreviation str := (list N).

(** The code points of an ASCII literal of the source. *)
Definition cp (s : string) : str :=
  map N_of_ascii (list_ascii_of_string s).

Definition str_eqb (a b : str) : bool := bool_decide (a = b).

(** Python truthiness of a string: [not s] holds for the empty string. *)
Definition truthy (s : str) : bool :=
  match s with [] => false | _ :: _ => true end.

Fixpoint startswith (s prefix : str) {struct prefix} : bool :=
  match prefix, s with
  | [], _ => true
  | p :: prefix', c :: s' => (c =? p) && startswith s' prefix'
  | _ :: _, [] => false
  end.

(** [needle in hay] on strings. *)
Fixpoint contains (needle hay : str) : bool :=
  startswith hay needle ||
  match hay with
  | [] => false
  | _ :: hay' => contains needle hay'
  end.

Definition endswith (s suffix : str) : bool :=
  startswith (rev s) (rev suffix).

Definition is_ascii_upper (c : N) : bool := (65 <=? c) && (c <=? 90).
Definition is_ascii_lower (c : N) : bool := (97 <=? c) && (c <=? 122).

(** ** The regular expressions of [re] that the source uses *)

Module Re.

(** One-character items: a literal and a negated one-character class. *)
Inductive item :=
| Literal (c : N)
| NotLiteral (c : N).

Inductive regex :=
| Empty
| Chr (i : item)
| MaxRepeat1 (i : item)          (* i+ , greedy *)
| Seq (r1 r2 : regex)
| Branch (r1 r2 : regex)         (* r1|r2 *)
| AtBeginning                    (* ^ *)
| AtEnd.                         (* $ without MULTILINE: at the end, or before a final newline *)

(** The code points that an ASCII pattern character matches under
    [re.IGNORECASE]: both cases of a letter, and the four non-ASCII code
    points U+0130, U+0131, U+017F and U+212A that case-fold to i, s and k. *)
Definition ignorecase_variants (p : N) : list N :=
  let lo := if is_ascii_upper p then p + 32 else p in
  if is_ascii_lower lo then
    [lo; lo - 32] ++
    (if lo =? 105 then [304; 305]
     else if lo =? 107 then [8490]
     else if lo =? 115 then [383]
     else [])
  else [p].

Definition literal_matches (ignorecase : bool) (p c : N) : bool :=
  if ignorecase then bool_decide (c ∈ ignorecase_variants p) else c =? p.

Definition item_matches (ignorecase : bool) (i : item) (c : N) : bool :=
  match i with
  | Literal p => literal_matches ignorecase p c
  | NotLiteral p => negb (literal_matches ignorecase p c)
  end.

(** A matcher state: the position in the subject and the text from there. *)
Definition state : Type := nat * str.

(** The states after one or more characters accepted by [ok], the longest
    run first (greedy repetition, shorter runs on backtracking). *)
Fixpoint repeat1 (ok : N -> bool) (pos : nat) (s : str) : list state :=
  match s with
  | [] => []
  | c :: s' => if ok c then repeat1 ok (S pos) s' ++ [(S pos, s')] else []
  end.

(** All the states in which a match of [r] that starts at [st] can end, in
    the order a backtracking matcher tries them. *)
Fixpoint run (ignorecase : bool) (r : regex) (st : state) : list state :=
  match r with
  | Empty => [st]
  | Chr i =>
      match st.2 with
      | c :: s' => if item_matches ignorecase i c then [(S st.1, s')] else []
      | [] => []
      end
  | MaxRepeat1 i => repeat1 (item_matches ignorecase i) st.1 st.2
  | Seq r1 r2 => flat_map (run ignorecase r2) (run ignorecase r1 st)
  | Branch r1 r2 => run ignorecase r1 st ++ run ignorecase r2 st
  | AtBeginning => if Nat.eqb st.1 0 then [st] else []
  | AtEnd => if bool_decide (st.2 = [] ∨ st.2 = [10]) then [st] else []
  end.

(** [re.match]: a match anchored at position 0; [None] when there is none. *)
Definition match_ (ignorecase : bool) (r : regex) (s : str) : option state :=
  head (run ignorecase r (0%nat, s)).

(** A literal word of the pattern. *)
Fixpoint word (w : str) : regex :=
  match w with
  | [] => Empty
  | c :: w' => Seq (Chr (Literal c)) (word w')
  end.

End Re.

(** ** URL syntax validation (lines 21-26) *)

(** [^(?:http|https)://[^ ]+$] *)
Definition url_regex : Re.regex :=
  Re.Seq Re.AtBeginning
    (Re.Seq (Re.Branch (Re.word (cp "http")) (Re.word (cp "https")))
       (Re.Seq (Re.word (cp "://"))
          (Re.Seq (Re.MaxRepeat1 (Re.NotLiteral 32)) Re.AtEnd))).

Definition is_valid_url (url : str) : bool :=
  match Re.match_ true url_regex url with
  | Some _ => true
  | None => false
  end.

(** ** Case and whitespace of [str] *)

Definition ascii_lower (c : N) : N := if is_ascii_upper c then c + 32 else c.

(** [str.isspace] for one code point. *)
Definition isspace (c : N) : bool :=
  bool_decide (c ∈ [9; 10; 11; 12; 13; 28; 29; 30; 31; 32; 133; 160; 5760;
                    8232; 8233; 8239; 8287; 12288])
  || ((8192 <=? c) && (c <=? 8202)).

Fixpoint lstrip (s : str) : str :=
  match s with
  | c :: s' => if isspace c then lstrip s' else s
  | [] => []
  end.

Definition rstrip (s : str) : str := rev (lstrip (rev s)).

(** [s.strip()] *)
Definition strip (s : str) : str := rstrip (lstrip s).

(** ** Records, log messages and events *)

(** One row of the dataset: the dict built at lines 94-98. *)
Record record := Row { url : str; title : str; paragraph : str }.

Inductive level := INFO | WARNING | ERROR.

Inductive message :=
| PageNotFoundDetected (u : str)            (* line 38 *)
| Non200Status (u : str) (status_code : Z)  (* line 42 *)
| ErrorChecking (u : str)                   (* line 44 *)
| ClientError (u : str) (status : Z)        (* line 69 *)
| TimeoutWhileFetching (u : str)            (* line 71 *)
| UnexpectedError (u : str)                 (* line 73 *)
| NoTitlesOrParagraphs (u : str)            (* line 88 *)
| ParsingError (u : str)                    (* line 103 *)
| CheckingUrls                              (* line 110 *)
| InvalidUrlSkipped (u : str)               (* line 116 *)
| NoValidAliveUrls                          (* line 119 *)
| NoDataScraped                             (* line 129 *)
| DataSaved (filename : str)                (* line 139 *)
| FailedToSave.                             (* line 141 *)

Inductive event :=
| Logged (l : level) (m : message)
| ProbeGet (u : str)                      (* [client.get(url)], line 34 *)
| SessionGet (u : str) (attempt : nat)    (* one request of [session.get], line 62 *)
| Sleep (ms : N)                          (* the retry client's wait between two requests *)
| Parse (html : str)                      (* [BeautifulSoup(html, "lxml")], line 82 *)
| ToCsv (filename : str) (rows : list record).  (* [df.to_csv], line 138 *)

(** ** The writer monad of logged computations *)

Definition Trace (A : Type) : Type := A * list event.

Definition ret {A} (a : A) : Trace A := (a, []).

Definition bind {A B} (m : Trace A) (k : A -> Trace B) : Trace B :=
  let (b, es) := k m.1 in (b, m.2 ++ es).

Definition tell (es : list event) : Trace unit := (tt, es).

Notation "x <- m ;; k" := (bind m (fun x => k))
  (at level 100, m at next level, right associativity).
Notation "m ;; k" := (bind m (fun _ => k))
  (at level 100, right associativity).

(** A call either returns a value or lets an exception propagate. *)
Inductive outcome (A : Type) :=
| Returned (a : A)
| Raised.
Arguments Returned {A} a.
Arguments Raised {A}.

(** ** The world outside the program *)

(** What the probe's [try] block meets: a response, or any exception. *)
Inductive probe_reply :=
| ProbeResponse (status_code : Z) (text : str)
| ProbeRaises.

(** The exceptions that the handlers of [fetch_url] tell apart. *)
Inductive exn :=
| ClientResponseError (status : Z)
| TimeoutError
| OtherException.

(** [await response.text()] *)
Inductive body :=
| Text (html : str)
| TextRaises (e : exn).

(** One request of the retry client. *)
Inductive fetch_reply :=
| Response (status : Z) (b : body)
| Raises (e : exn).

(** The tree that [BeautifulSoup] builds, as the two queries of lines 84-85
    see it: [tag.text] of every h1, h2, h3 element and of every p element,
    each in document order; [None] when evaluating the query raises. *)
Record soup := Soup {
  select_h1_h2_h3 : option (list str);
  find_all_p : option (list str)
}.

(** The replies of the servers depend on the URL, and for the content fetch
    on the number of the attempt, only: two requests for the same URL within
    a run are answered alike. *)
Record World := {
  (** the reply to the probe's GET of a URL (redirects followed) *)
  httpx_get : str -> probe_reply;
  (** the reply to the k-th request (from 1) of the content fetch of a URL *)
  session_request : str -> nat -> fetch_reply;
  (** whether the retry client, as installed, retries a raised exception *)
  retry_exceptions : exn -> bool;
  (** [str.lower] of a code point above ASCII, between the text before and
      after it *)
  unicode_lower : str -> N -> str -> str;
  (** [BeautifulSoup(html, "lxml")]; [None] when the constructor raises *)
  BeautifulSoup : str -> option soup;
  (** whether [df.to_csv] succeeds *)
  to_csv_ok : str -> list record -> bool
}.

(** [s.lower()]: ASCII letters are lowered, other ASCII code points kept,
    the rest follows the Unicode tables of the world. *)
Fixpoint lower_from (w : World) (before s : str) : str :=
  match s with
  | [] => []
  | c :: rest =>
      (if c <? 128 then [ascii_lower c] else unicode_lower w before c rest)
      ++ lower_from w (before ++ [c]) rest
  end.

Definition lower (w : World) (s : str) : str := lower_from w [] s.

(** ** Liveness probe (lines 29-45) *)

Definition is_url_alive_and_valid (w : World) (u : str) : Trace bool :=
  tell [ProbeGet u];;
  match httpx_get w u with
  | ProbeResponse status_code text =>
      if (status_code =? 200)%Z then
        let content_lower := lower w text in
        if contains (cp "page not found") content_lower then
          tell [Logged WARNING (PageNotFoundDetected u)];;
          ret false
        else ret true
      else
        tell [Logged WARNING (Non200Status u status_code)];;
        ret false
  | ProbeRaises =>
      tell [Logged ERROR (ErrorChecking u)];;
      ret false
  end.

(** ** The retry client (aiohttp_retry, configured at lines 122-123)

    The client is a library of the program, not part of its sources; its
    request loop and its exponential policy are modelled here as the library
    runs them for a GET under the options of line 122. *)

Module Retry.

(** The options of a retry policy, waits in milliseconds. *)
Record options := {
  attempts : nat;
  start_timeout : N;
  max_timeout : N;
  factor : N;
  statuses : list Z;
  retry_all_server_errors : bool;
  exceptions : exn -> bool
}.

(** [ExponentialRetry(attempts=n)] with the library's defaults: waits from
    0.1 s, doubling, capped at 30 s; no extra status retried; every 5xx
    status retried.  Which exceptions the default retries differs between
    releases of the library and is taken from the world. *)
Definition ExponentialRetry (w : World) (n : nat) : options :=
  {| attempts := n;
     start_timeout := 100;
     max_timeout := 30000;
     factor := 2;
     statuses := [];
     retry_all_server_errors := true;
     exceptions := retry_exceptions w |}.

(** [get_timeout(attempt)]: the wait after the given attempt,
    [min(start_timeout * factor ** attempt, max_timeout)]. *)
Definition get_timeout (o : options) (attempt : nat) : N :=
  N.min (start_timeout o * factor o ^ N.of_nat attempt) (max_timeout o).

(** Whether a response with this status is retried while attempts remain. *)
Definition status_retried (o : options) (status : Z) : bool :=
  ((500 <=? status)%Z && retry_all_server_errors o)
  || bool_decide (status ∈ statuses o).

(** Whether the policy asks for another request after this reply. *)
Definition retried (o : options) (reply : fetch_reply) : bool :=
  match reply with
  | Response status _ => status_retried o status
  | Raises e => exceptions o e
  end.

(** The request loop of the client for one [session.get].  [left] is the
    number of attempts that remain after the current one, so the library's
    test [current_attempt == attempts] is [left = 0].  With
    [raise_for_status=False] the last response is handed to the caller
    whatever its status; an exception is re-raised when no attempt remains
    or when the policy does not retry it. *)
Fixpoint do_request (w : World) (o : options) (u : str)
    (left current_attempt : nat) : Trace fetch_reply :=
  let current_attempt := S current_attempt in
  tell [SessionGet u current_attempt];;
  let reply := session_request w u current_attempt in
  match left with
  | O => ret reply
  | S left' =>
      if retried o reply then
        tell [Sleep (get_timeout o current_attempt)];;
        do_request w o u left' current_attempt
      else ret reply
  end.

(** [session.get(url, ...)] entered as a context manager. *)
Definition get (w : World) (o : options) (u : str) : Trace fetch_reply :=
  do_request w o u (attempts o - 1) 0.

End Retry.

(** The policy of line 122. *)
Definition retry_options (w : World) : Retry.options :=
  Retry.ExponentialRetry w 3.

(** ** Fetch (lines 48-74) *)

(** The three [except] clauses of lines 68-73; each logs and falls through
    to [return None]. *)
Definition fetch_failed (u : str) (e : exn) : Trace (option str) :=
  tell [Logged ERROR
          match e with
          | ClientResponseError status => ClientError u status
          | TimeoutError => TimeoutWhileFetching u
          | OtherException => UnexpectedError u
          end];;
  ret None.

Definition fetch_url (w : World) (u : str) : Trace (option str) :=
  reply <- Retry.get w (retry_options w) u;;
  match reply with
  | Response status b =>
      (* response.raise_for_status() raises for a status of 400 and above *)
      if (400 <=? status)%Z then fetch_failed u (ClientResponseError status)
      else
        match b with
        | Text html => ret (Some html)
        | TextRaises e => fetch_failed u e
        end
  | Raises e => fetch_failed u e
  end.

(** ** Extraction (lines 77-104) *)

(** The loop of lines 91-98. *)
Definition combined_data (u : str) (titles paragraphs : list str) : list record :=
  let max_len := Nat.max (length titles) (length paragraphs) in
  map (fun i =>
         {| url := u;
            title := if (i <? length titles)%nat then nth i titles [] else [];
            paragraph := if (i <? length paragraphs)%nat then nth i paragraphs [] else [] |})
      (seq 0 max_len).

Definition is_empty {A} (l : list A) : bool :=
  match l with [] => true | _ :: _ => false end.

Definition scrape_data (w : World) (u : str) : Trace (outcome (list record)) :=
  html <- fetch_url w u;;
  match html with
  | None => ret (Returned [])
  | Some html =>
      if negb (truthy html) then ret (Returned [])
      else
        tell [Parse html];;
        match BeautifulSoup w html with
        | None => ret Raised                     (* line 82 is outside the try *)
        | Some s =>
            match select_h1_h2_h3 s, find_all_p s with
            | Some hs, Some ps =>
                let titles := map strip hs in
                let paragraphs := map strip ps in
                if is_empty titles && is_empty paragraphs then
                  tell [Logged WARNING (NoTitlesOrParagraphs u)];;
                  ret (Returned [])
                else ret (Returned (combined_data u titles paragraphs))
            | _, _ =>
                tell [Logged ERROR (ParsingError u)];;
                ret (Returned [])
            end
        end
  end.

(** ** Orchestration (lines 107-141) *)

(** The loop of lines 111-116. *)
Fixpoint check_urls (w : World) (urls : list str) : Trace (list str) :=
  match urls with
  | [] => ret []
  | u :: rest =>
      keep <- (if is_valid_url u then is_url_alive_and_valid w u
               else tell [Logged WARNING (InvalidUrlSkipped u)];; ret false);;
      valid_urls <- check_urls w rest;;
      ret (if keep then u :: valid_urls else valid_urls)
  end.

(** Awaiting the tasks as they complete; the first exception met propagates. *)
Fixpoint await_each {A} (res : list (nat * Trace (outcome A)))
    : Trace (outcome (list (nat * A))) :=
  match res with
  | [] => ret (Returned [])
  | (i, task) :: res' =>
      r <- task;;
      match r with
      | Raised => ret Raised
      | Returned a =>
          rs <- await_each res';;
          ret (match rs with
               | Raised => Raised
               | Returned l => Returned ((i, a) :: l)
               end)
      end
  end.

(** Order of the pairs (index, result) by index; the indices of a run are
    distinct, so results are never compared. *)
Definition by_index {A} (x y : nat * A) : Prop := (x.1 <= y.1)%nat.

#[global] Instance by_index_dec {A} (x y : nat * A) : Decision (by_index x y).
Proof. unfold by_index. apply _. Defined.

(** [tqdm_asyncio.gather] on the tasks: every task is paired with its index,
    the pairs are awaited in the order [order] in which the tasks complete,
    then sorted by index, and the results are returned without the indices.
    The trace lists the events task by task in completion order; how the
    events of different tasks interleave is not modelled. *)
Definition gather {A} (order : list nat) (tasks : list (Trace (outcome A)))
    : Trace (outcome (list A)) :=
  let ifs := omap (fun i => pair i <$> tasks !! i) order in
  res <- await_each ifs;;
  ret (match res with
       | Raised => Raised
       | Returned res => Returned (map snd (merge_sort by_index res))
       end).

(** How a run of [main] ends. *)
Inductive run_result :=
| NoValidUrls                      (* return at line 120 *)
| NoData                           (* return at line 130 *)
| Dataset (flat_data : list record)  (* lines 132-141, the frame handed to to_csv *)
| TaskRaised.                      (* an exception of a task leaves main *)

Definition main (w : World) (order : list nat) (urls : list str) (filename : str)
    : Trace run_result :=
  tell [Logged INFO CheckingUrls];;
  valid_urls <- check_urls w urls;;
  if is_empty valid_urls then
    tell [Logged WARNING NoValidAliveUrls];;
    ret NoValidUrls
  else
    let tasks := map (scrape_data w) valid_urls in
    all_results <- gather order tasks;;
    match all_results with
    | Raised => ret TaskRaised
    | Returned all_results =>
        let flat_data :=
          concat (filter (fun sublist => negb (is_empty sublist)) all_results) in
        if is_empty flat_data then
          tell [Logged WARNING NoDataScraped];;
          ret NoData
        else
          let filename :=
            if endswith filename (cp ".csv") then filename
            else filename ++ cp ".csv" in
          tell [ToCsv filename flat_data];;
          tell [if to_csv_ok w filename flat_data
                then Logged INFO (DataSaved filename)
                else Logged ERROR FailedToSave];;
          ret (Dataset flat_data)
    end.

(** ** Derived views of a run *)

(** The URLs that survive validation and probing (line 109-116). *)
Definition valid_urls (w : World) (urls : list str) : list str :=
  (check_urls w urls).1.

(** The records that the task of one URL returns. *)
Definition records_of (w : World) (u : str) : list record :=
  match (scrape_data w u).1 with
  | Returned l => l
  | Raised => []
  end.

(** The dataset with which a run ends; empty when nothing is written. *)
Definition dataset_of (r : run_result) : list record :=
  match r with
  | Dataset flat_data => flat_data
  | _ => []
  end.

Definition is_session_get (e : event) : bool :=
  match e with SessionGet _ _ => true | _ => false end.

Definition is_logged (e : event) : bool :=
  match e with Logged _ _ => true | _ => false end.

Definition is_to_csv (e : event) : bool :=
  match e with ToCsv _ _ => true | _ => false end.

(** The number of requests in a trace. *)
Definition requests (es : list event) : nat :=
  length (filter (fun e => is_session_get e = true) es).

(** The network events of a fetch that needs [n] requests under exponential
    backoff: request k is followed, unless it is the last, by a wait of
    100 * 2^k ms, twice the wait before it. *)
Definition backoff_trace (u : str) (n : nat) : list event :=
  flat_map (fun k => SessionGet u k ::
                     (if (k <? n)%nat then [Sleep (100 * 2 ^ N.of_nat k)] else []))
           (seq 1 n).

(** ** Sample worlds *)

Definition good_url : str := cp "http://good.test/page".
Definition flaky_url : str := cp "http://flaky.test/page".
Definition soft404_url : str := cp "http://gone.test/page".
Definition missing_url : str := cp "http://good.test/missing".
Definition blank_url : str := cp "http://good.test/blank".
Definition down_url : str := cp "http://down.test/page".
Definition untitled_url : str := cp "http://good.test/untitled".
Definition tab_url : str := cp "http://a" ++ [9] ++ cp "b".

Definition good_html : str := cp "<h1> Intro </h1><p>A</p><p> B</p>".
Definition soft404_html : str := cp "<h1>Oops</h1><p>Page Not Found</p>".
Definition long_html : str := cp "<h1>H0</h1><h2>H1</h2><p>0</p><p>1</p><p>2</p><p>3</p><p>4</p>".
Definition untitled_html : str := cp "<h1> </h1><h2>H1</h2><p>0</p><p>1</p><p>2</p><p>3</p><p>4</p>".

(** A small site: a good page, a page that fails twice with a 503 before it
    is served, a soft 404, a hard 404, a page with an empty body, a host
    that always answers 503 to the fetch, and a page whose first heading is
    blank. *)
Definition site : World :=
  {| httpx_get := fun u =>
       if str_eqb u soft404_url then ProbeResponse 200 soft404_html
       else if str_eqb u good_url || str_eqb u flaky_url || str_eqb u missing_url
               || str_eqb u blank_url || str_eqb u down_url || str_eqb u untitled_url
       then ProbeResponse 200 good_html
       else ProbeResponse 404 [];
     session_request := fun u k =>
       if str_eqb u good_url then Response 200 (Text good_html)
       else if str_eqb u flaky_url then
         (if (k <? 3)%nat then Response 503 (Text []) else Response 200 (Text long_html))
       else if str_eqb u blank_url then Response 200 (Text [])
       else if str_eqb u down_url then Response 503 (Text [])
       else if str_eqb u untitled_url then Response 200 (Text untitled_html)
       else Response 404 (Text (cp "not here"));
     retry_exceptions := fun _ => false;
     unicode_lower := fun _ c _ => [c];
     BeautifulSoup := fun html =>
       if str_eqb html good_html then
         Some (Soup (Some [cp " Intro "]) (Some [cp "A"; cp " B"]))
       else if str_eqb html long_html then
         Some (Soup (Some [cp "H0"; cp "H1"])
                    (Some [cp "0"; cp "1"; cp "2"; cp "3"; cp "4"]))
       else if str_eqb html untitled_html then
         Some (Soup (Some [cp " "; cp "H1"])
                    (Some [cp "0"; cp "1"; cp "2"; cp "3"; cp "4"]))
       else Some (Soup (Some []) (Some []));
     to_csv_ok := fun _ _ => true |}.

(** The same site with a parser that rejects the markup of the good page. *)
Definition rejecting_site : World :=
  {| httpx_get := httpx_get site;
     session_request := session_request site;
     retry_exceptions := retry_exceptions site;
     unicode_lower := unicode_lower site;
     BeautifulSoup := fun html =>
       if str_eqb html good_html then None else BeautifulSoup site html;
     to_csv_ok := to_csv_ok site |}.

(** ** What a match of a regular expression is *)

(** [ends ic r st st']: a match of [r] that starts in state [st] can end in
    state [st']. *)
Fixpoint ends (ic : bool) (r : Re.regex) (st st' : Re.state) : Prop :=
  match r with
  | Re.Empty => st' = st
  | Re.Chr i =>
      ∃ c, st.2 = c :: st'.2 ∧ Re.item_matches ic i c = true ∧ st'.1 = S st.1
  | Re.MaxRepeat1 i =>
      ∃ cs, cs ≠ [] ∧ st.2 = cs ++ st'.2
            ∧ Forall (fun c => Re.item_matches ic i c = true) cs
            ∧ st'.1 = (st.1 + length cs)%nat
  | Re.Seq r1 r2 => ∃ mid, ends ic r1 st mid ∧ ends ic r2 mid st'
  | Re.Branch r1 r2 => ends ic r1 st st' ∨ ends ic r2 st st'
  | Re.AtBeginning => st' = st ∧ st.1 = 0%nat
  | Re.AtEnd => st' = st ∧ (st.2 = [] ∨ st.2 = [10])
  end.

(** [scheme] spells the pattern word [pat] up to the case folding of
    [re.IGNORECASE]. *)
Definition ci_word (scheme pat : str) : Prop :=
  Forall2 (fun c p => c ∈ Re.ignorecase_variants p) scheme pat.

(** The validity of section 4.1 as the specification words it: the scheme
    (read here in any letter case), then one or more characters none of
    which is whitespace. *)
Definition spec_valid_url (s : str) : Prop :=
  ∃ scheme rest,
    s = scheme ++ rest
    ∧ (ci_word scheme (cp "http://") ∨ ci_word scheme (cp "https://"))
    ∧ rest ≠ []
    ∧ Forall (fun c => isspace c = false) rest.

(** [phrase] occurs in [text] in some letter case. *)
Definition occurs_any_case (phrase text : str) : Prop :=
  ∃ pre mid post,
    text = pre ++ mid ++ post ∧ Forall2 (fun c p => ascii_lower c = p) mid phrase.

(** What [str.lower] does above ASCII, as far as line 37 depends on it: the
    lowercase of a code point above ASCII is never empty, and the only ASCII
    code points in it are i (from U+0130, which lowers to i followed by
    U+0307) and k (from U+212A, the Kelvin sign).  The case mappings of
    Unicode have this property. *)
Definition unicode_lower_sound (w : World) : Prop :=
  ∀ before c after,
    128 ≤ c →
    unicode_lower w before c after ≠ []
    ∧ Forall (fun x => 128 ≤ x ∨ x = 105 ∨ x = 107) (unicode_lower w before c after).

(** The requests and waits of a retry loop that starts after attempt [cur]
    and makes [m] requests. *)
Definition attempts_trace (o : Retry.options) (u : str) (cur m : nat) : list event :=
  flat_map (fun k => SessionGet u k ::
                     (if (k <? cur + m)%nat then [Sleep (Retry.get_timeout o k)] else []))
           (seq (S cur) m).

(** The value of a fetch, from the reply that the retry client hands over. *)
Definition fetched (reply : fetch_reply) : option str :=
  match reply with
  | Response status (Text html) => if (400 <=? status)%Z then None else Some html
  | _ => None
  end.

(** The events that the task of URL [u] can emit. *)
Definition task_event (u : str) (e : event) : Prop :=
  match e with
  | SessionGet v _ => v = u
  | Sleep _ | Logged _ _ | Parse _ => True
  | ProbeGet _ | ToCsv _ _ => False
  end.

(** The events that the validation loop over [urls] can emit. *)
Definition check_event (urls : list str) (e : event) : Prop :=
  match e with
  | ProbeGet u => u ∈ urls ∧ is_valid_url u = true
  | Logged _ _ => True
  | _ => False
  end.

Arguments is_valid_url : simpl never.
Arguments is_url_alive_and_valid : simpl never.
Arguments Retry.get : simpl never.
Arguments fetch_url : simpl never.
Arguments scrape_data : simpl never.
Arguments check_urls : simpl nomatch.
Arguments lower : simpl never.
Arguments contains : simpl never.
Arguments cp : simpl never.
Arguments gather : simpl never.
Arguments Retry.retried : simpl never.
Arguments main : simpl never.

(** ** The command line (lines 144-182) *)

(** What the entry block reads from and prints to the console. *)
Inductive console_event :=
| Input (line : str)          (* one call of input(), line 167 *)
| PleaseEnterValidUrl         (* print, line 173 *)
| NoUrlsProvided.             (* print, line 176 *)

(** The loop of lines 166-173 over the lines that remain on the standard
    input; [input()] raises EOFError when none is left. *)
Fixpoint read_urls (w : World) (stdin : list str)
    : outcome (list str) * list console_event :=
  match stdin with
  | [] => (Raised, [])
  | line :: rest =>
      let u := strip line in
      if str_eqb (lower w u) (cp "done") then (Returned [], [Input line])
      else
        let (r, es) := read_urls w rest in
        if startswith u (cp "http") then
          (match r with
           | Returned urls => Returned (u :: urls)
           | Raised => Raised
           end, Input line :: es)
        else (r, Input line :: PleaseEnterValidUrl :: es)
  end.

(** The default of the option -o, line 151. *)
Definition default_output : str := cp "scraped_data.csv".

(** How the entry block ends. *)
Inductive exit_status :=
| EndOfInput                       (* EOFError leaves the loop of line 166 *)
| Exited                           (* exit() at line 177 *)
| Ran (urls : list str) (filename : str) (run : Trace run_result).  (* line 180 *)

(** Lines 158-180: the URLs of -u when given, else those read at the
    prompt; no run without a URL.  [configure_logging] only sets the level
    of the log, and the elapsed time logged at line 182 is a clock reading;
    both are left out. *)
Definition entry (w : World) (order : list nat)
    (args_urls : option (list str)) (args_output : option str)
    (stdin : list str) : exit_status * list console_event :=
  let output := default default_output args_output in
  let (r, es) :=
    match args_urls with
    | Some (u :: urls) => (Returned (u :: urls), [])
    | _ => read_urls w stdin
    end in
  match r with
  | Raised => (EndOfInput, es)
  | Returned urls =>
      if is_empty urls then (Exited, es ++ [NoUrlsProvided])
      else (Ran urls output (main w order urls output), es)
  end.

(** ** More views of a trace *)

Definition is_probe_get (e : event) : bool :=
  match e with ProbeGet _ => true | _ => false end.

Definition is_invalid_skipped (e : event) : bool :=
  match e with Logged WARNING (InvalidUrlSkipped _) => true | _ => false end.

(** A string that neither starts nor ends with a whitespace character. *)
Definition trimmed (s : str) : Prop :=
  (∀ c, head s = Some c → isspace c = false)
  ∧ (∀ c, last s = Some c → isspace c = false).

Arguments read_urls : simpl nomatch.

(** * Properties *)

(** ** The writer monad *)

Lemma bind_fst {A B} (m : Trace A) (k : A -> Trace B) :
  (bind m k).1 = (k m.1).1.
Proof. unfold bind. by destruct (k m.1). Qed.

Lemma bind_snd {A B} (m : Trace A) (k : A -> Trace B) :
  (bind m k).2 = m.2 ++ (k m.1).2.
Proof. unfold bind. by destruct (k m.1). Qed.

(** ** The matcher computes the matches *)

Lemma repeat1_ends ok pos s st' :
  st' ∈ Re.repeat1 ok pos s ↔
  ∃ cs, cs ≠ [] ∧ s = cs ++ st'.2 ∧ Forall (fun c => ok c = true) cs
        ∧ st'.1 = (pos + length cs)%nat.
Proof.
  revert pos. induction s as [|c s IH]; intros pos; simpl.
  - split; [by intros ?%elem_of_nil|].
    intros (cs & Hne & Hs & _). by destruct cs.
  - destruct (ok c) eqn:Hc.
    + rewrite elem_of_app, IH, list_elem_of_singleton. split.
      * intros [(cs & Hne & -> & Hall & Hpos) | ->].
        -- exists (c :: cs). repeat split; [done | by constructor |].
           rewrite Hpos. simpl. lia.
        -- exists [c]. repeat split; [done | by repeat constructor |].
           simpl. lia.
      * intros (cs & Hne & Hs & Hall & Hpos).
        destruct cs as [|c' cs]; [done|]. simpl in Hs. simplify_eq.
        inversion_clear Hall as [|?? _ Hall'].
        destruct cs as [|c'' cs].
        -- right. destruct st' as [p t]. simpl in *. f_equal. lia.
        -- left. exists (c'' :: cs). repeat split; [done..|].
           rewrite Hpos. simpl. lia.
    + split; [by intros ?%elem_of_nil|].
      intros (cs & Hne & Hs & Hall & _).
      destruct cs as [|c' cs]; [done|]. simpl in Hs. simplify_eq.
      inversion_clear Hall. congruence.
Qed.

Lemma run_ends ic r st st' : st' ∈ Re.run ic r st ↔ ends ic r st st'.
Proof.
  revert st st'. induction r as [|i|i|r1 IH1 r2 IH2|r1 IH1 r2 IH2| |];
    intros st st'; simpl.
  - by rewrite list_elem_of_singleton.
  - destruct st as [p [|c s]]; simpl.
    + split; [by intros ?%elem_of_nil | by intros (c & ? & _)].
    + destruct (Re.item_matches ic i c) eqn:Hc.
      * rewrite list_elem_of_singleton. split.
        -- intros ->. by exists c.
        -- intros (c' & Hs & _ & Hp). destruct st'; simpl in *.
           by simplify_eq.
      * split; [by intros ?%elem_of_nil|].
        intros (c' & Hs & Hm & _). simplify_eq. congruence.
  - apply repeat1_ends.
  - rewrite list_elem_of_In, in_flat_map. split.
    + intros (mid & H1 & H2). exists mid.
      by rewrite <-IH1, <-IH2, !list_elem_of_In.
    + intros (mid & H1 & H2). exists mid.
      by rewrite <-!list_elem_of_In, IH1, IH2.
  - by rewrite elem_of_app, IH1, IH2.
  - destruct (Nat.eqb_spec st.1 0) as [Hz|Hnz].
    + rewrite list_elem_of_singleton. tauto.
    + split; [intros []%elem_of_nil | tauto].
  - case_bool_decide as Hend.
    + rewrite list_elem_of_singleton. tauto.
    + split; [intros []%elem_of_nil | tauto].
Qed.

Lemma match_ends ic r s :
  is_Some (Re.match_ ic r s) ↔ ∃ st', ends ic r (0%nat, s) st'.
Proof.
  unfold Re.match_. split.
  - intros [st' H]. exists st'. apply run_ends.
    destruct (Re.run ic r (0%nat, s)); simplify_eq/=. by left.
  - intros [st' H%run_ends].
    destruct (Re.run ic r (0%nat, s)); [by apply elem_of_nil in H | by eexists].
Qed.

Lemma word_ends w st st' :
  ends true (Re.word w) st st' ↔
  ∃ pre, st.2 = pre ++ st'.2 ∧ ci_word pre w ∧ st'.1 = (st.1 + length w)%nat.
Proof.
  revert st. induction w as [|p w IH]; intros st; simpl.
  - split.
    + intros ->. exists []. repeat split; [constructor | lia].
    + intros (pre & Hs & Hw & Hp). inversion Hw; subst.
      destruct st, st'; simpl in *. f_equal; [lia | done].
  - split.
    + intros (mid & (c & Hs & Hc & Hp) & (pre & Hs' & Hw & Hp')%IH).
      exists (c :: pre). repeat split.
      * by rewrite Hs, Hs'.
      * constructor; [|done]. unfold Re.literal_matches in Hc.
        by apply bool_decide_eq_true in Hc.
      * lia.
    + intros (pre & Hs & Hw & Hp). inversion Hw as [|c ? pre' ? Hc Hw']; subst.
      exists (S st.1, pre' ++ st'.2). split.
      * exists c. repeat split; [done|].
        unfold Re.literal_matches. by apply bool_decide_eq_true.
      * apply IH. exists pre'. repeat split; [done|]. simpl. lia.
Qed.

Lemma not_space_matches c : Re.item_matches true (Re.NotLiteral 32) c = true ↔ c ≠ 32.
Proof.
  simpl. unfold Re.literal_matches. rewrite negb_true_iff, bool_decide_eq_false.
  change (Re.ignorecase_variants 32) with [32]. by rewrite list_elem_of_singleton.
Qed.

(** What [is_valid_url] accepts. *)
Lemma is_valid_url_iff s :
  is_valid_url s = true ↔
  ∃ scheme rest,
    s = scheme ++ rest
    ∧ (ci_word scheme (cp "http://") ∨ ci_word scheme (cp "https://"))
    ∧ rest ≠ [] ∧ 32 ∉ rest.
Proof.
  unfold is_valid_url.
  transitivity (is_Some (Re.match_ true url_regex s)).
  { destruct (Re.match_ true url_regex s); split; (done || by intros [? ?] || by eexists). }
  rewrite match_ends. unfold url_regex. split.
  - intros (st' & m0 & [Hm0 _] & m1 & Hscheme & m2 & Hsep & m3 & Hrep & _ & Hend).
    assert (s = m0.2) as -> by by rewrite Hm0.
    apply word_ends in Hsep as (sep & Hs2 & Hsep & _).
    destruct Hrep as (cs & Hne & Hs3 & Hall & _).
    assert (∀ pre w, m0.2 = pre ++ m1.2 → ci_word pre w →
            ∃ scheme rest, m0.2 = scheme ++ rest ∧ ci_word scheme (w ++ cp "://")
                           ∧ rest ≠ [] ∧ 32 ∉ rest) as Hgen.
    { intros pre w Hs1 Hw. exists (pre ++ sep), (cs ++ m3.2). repeat split.
      - by rewrite Hs1, Hs2, Hs3, <-!(assoc_L (++)).
      - by apply Forall2_app.
      - by destruct cs.
      - rewrite elem_of_app. intros [Hin|Hin].
        + rewrite Forall_forall in Hall. by apply Hall, not_space_matches in Hin.
        + destruct Hend as [Hend|Hend]; rewrite Hend in Hin;
            [by apply elem_of_nil in Hin | by apply list_elem_of_singleton in Hin]. }
    destruct Hscheme as [H|H]; apply word_ends in H as (pre & Hs1 & Hw & _).
    + destruct (Hgen pre (cp "http") Hs1 Hw) as (scheme & rest & ? & ? & ? & ?).
      exists scheme, rest. simpl in *. eauto.
    + destruct (Hgen pre (cp "https") Hs1 Hw) as (scheme & rest & ? & ? & ? & ?).
      exists scheme, rest. simpl in *. eauto 6.
  - intros (scheme & rest & -> & Hscheme & Hne & Hsp).
    assert (∀ w, ci_word scheme (w ++ cp "://") →
            ∃ mid, ends true (Re.word w) (0%nat, scheme ++ rest) mid
                   ∧ ∃ mid', ends true (Re.word (cp "://")) mid mid'
                             ∧ mid'.2 = rest) as Hgen.
    { intros w (pre & sep & Hpre & Hsep & ->)%Forall2_app_inv_r.
      exists (length w, sep ++ rest). split.
      - apply word_ends. exists pre. simpl. by rewrite <-(assoc_L (++)).
      - exists ((length w + 3)%nat, rest). split; [|done].
        apply word_ends. exists sep. by simpl. }
    assert (∀ mid' : Re.state, mid'.2 = rest →
            ∃ m3, ends true (Re.MaxRepeat1 (Re.NotLiteral 32)) mid' m3
                  ∧ ends true Re.AtEnd m3 m3) as Htail.
    { intros mid' Hrest. exists ((mid'.1 + length rest)%nat, []). split.
      - exists rest. repeat split; [done | by rewrite Hrest, app_nil_r |].
        apply Forall_forall. intros c Hc. apply not_space_matches. by intros ->.
      - simpl. auto. }
    destruct Hscheme as [H|H].
    + destruct (Hgen (cp "http") H) as (mid & H1 & mid' & H2 & Hr).
      destruct (Htail mid' Hr) as (m3 & H3 & H4).
      exists m3, (0%nat, scheme ++ rest). split; [done|].
      exists mid. split; [by left|]. exists mid'. split; [done|]. by exists m3.
    + destruct (Hgen (cp "https") H) as (mid & H1 & mid' & H2 & Hr).
      destruct (Htail mid' Hr) as (m3 & H3 & H4).
      exists m3, (0%nat, scheme ++ rest). split; [done|].
      exists mid. split; [by right|]. exists mid'. split; [done|]. by exists m3.
Qed.

(** ** What each stage logs and requests *)

Ltac trace_simpl := rewrite ?bind_fst, ?bind_snd; simpl.

Lemma probe_events w u e :
  e ∈ (is_url_alive_and_valid w u).2 → e = ProbeGet u ∨ is_logged e = true.
Proof.
  unfold is_url_alive_and_valid. trace_simpl.
  destruct (httpx_get w u) as [status_code text|]; [destruct (status_code =? 200)%Z;
    [destruct (contains _ _)|]|]; trace_simpl;
    rewrite ?elem_of_cons, ?elem_of_nil; intuition (subst; simpl; auto).
Qed.

Lemma check_urls_fst w urls :
  (check_urls w urls).1
  = filter (fun u => is_valid_url u && (is_url_alive_and_valid w u).1) urls.
Proof.
  induction urls as [|u urls IH]; [done|].
  simpl. trace_simpl. rewrite IH, filter_cons.
  destruct (is_valid_url u); simpl; [|done].
  by destruct ((is_url_alive_and_valid w u).1).
Qed.

Lemma elem_of_valid_urls w urls u :
  u ∈ valid_urls w urls ↔
  u ∈ urls ∧ is_valid_url u = true ∧ (is_url_alive_and_valid w u).1 = true.
Proof.
  unfold valid_urls. rewrite check_urls_fst, list_elem_of_filter.
  rewrite andb_True, !Is_true_true. tauto.
Qed.

Lemma check_urls_events w urls e :
  e ∈ (check_urls w urls).2 → check_event urls e.
Proof.
  induction urls as [|u urls IH]; simpl; [by intros ?%elem_of_nil|].
  trace_simpl. rewrite ?app_nil_r, !elem_of_app. intros [He|He].
  - destruct (is_valid_url u) eqn:Hv.
    + apply probe_events in He as [->|He]; [simpl; split; [by left|done]|].
      by destruct e.
    + revert He. trace_simpl. rewrite list_elem_of_singleton. by intros ->.
  - specialize (IH He). destruct e; simpl in *; try done.
    destruct IH. split; [by right|done].
Qed.

Lemma do_request_events w o u left cur e :
  e ∈ (Retry.do_request w o u left cur).2 → task_event u e.
Proof.
  revert cur. induction left as [|left IH]; intros cur; simpl; trace_simpl.
  - rewrite ?app_nil_r, list_elem_of_singleton. by intros ->.
  - rewrite elem_of_cons. intros [->|He]; [done|].
    destruct (Retry.retried o (session_request w u (S cur))); revert He; trace_simpl.
    + rewrite elem_of_cons. intros [->|He]; [done|]. by apply IH in He.
    + by intros ?%elem_of_nil.
Qed.

Lemma fetch_url_events w u e : e ∈ (fetch_url w u).2 → task_event u e.
Proof.
  unfold fetch_url. trace_simpl. rewrite elem_of_app. intros [He|He].
  - by apply do_request_events in He.
  - assert (∀ x, e ∈ (fetch_failed u x).2 → task_event u e) as Hfail.
    { intros x. unfold fetch_failed. trace_simpl.
      rewrite list_elem_of_singleton. by intros ->. }
    destruct (Retry.get w (retry_options w) u).1 as [status [html|x]|x];
      [destruct (400 <=? status)%Z..|]; eauto.
    by apply elem_of_nil in He.
Qed.

Lemma scrape_data_events w u e : e ∈ (scrape_data w u).2 → task_event u e.
Proof.
  unfold scrape_data. trace_simpl. rewrite elem_of_app. intros [He|He].
  - by apply fetch_url_events in He.
  - revert He.
    destruct (fetch_url w u).1 as [html|]; [|by intros ?%elem_of_nil].
    destruct (truthy html); simpl; [|by intros ?%elem_of_nil].
    trace_simpl. rewrite elem_of_cons. intros [->|He]; [done|]. revert He.
    destruct (BeautifulSoup w html) as [[[hs|] [ps|]]|]; simpl;
      try destruct (is_empty (map strip hs) && is_empty (map strip ps));
      trace_simpl; rewrite ?elem_of_cons, ?elem_of_nil; intuition (subst; simpl; auto).
Qed.

Lemma await_each_events {A} (res : list (nat * Trace (outcome A))) e :
  e ∈ (await_each res).2 → ∃ it, it ∈ res ∧ e ∈ it.2.2.
Proof.
  induction res as [|[i task] res IH]; simpl; [by intros ?%elem_of_nil|].
  trace_simpl. rewrite elem_of_app. intros [He|He].
  - exists (i, task). split; [by left|done].
  - destruct task.1; revert He; trace_simpl; [|by intros ?%elem_of_nil].
    rewrite ?app_nil_r. intros (it & ? & ?)%IH. exists it. split; [by right|done].
Qed.

Lemma gather_events {A} order (tasks : list (Trace (outcome A))) e :
  e ∈ (gather order tasks).2 → ∃ task, task ∈ tasks ∧ e ∈ task.2.
Proof.
  unfold gather. trace_simpl. rewrite ?app_nil_r.
  intros ([i task] & Hin & He)%await_each_events.
  apply list_elem_of_omap in Hin as (j & _ & Hj).
  destruct (tasks !! j) as [t|] eqn:Hlook; simplify_eq/=.
  exists task. split; [by eapply list_elem_of_lookup_2|done].
Qed.

(** Every event of a run is a log line, an event of the validation loop,
    an event of the task of a surviving URL, or the final write. *)
Lemma main_events w order urls filename e :
  e ∈ (main w order urls filename).2 →
  is_logged e = true ∨ check_event urls e
  ∨ (∃ v, v ∈ valid_urls w urls ∧ task_event v e) ∨ is_to_csv e = true.
Proof.
  unfold main. fold (valid_urls w urls).
  set (g := gather order (map (scrape_data w) (valid_urls w urls))).
  intros He. rewrite bind_snd in He. simpl in He.
  apply elem_of_cons in He as [->|He]; [by left|].
  rewrite bind_snd in He. fold (valid_urls w urls) in He.
  apply elem_of_app in He as [He|He];
    [right; left; by apply (check_urls_events w)|].
  destruct (is_empty (valid_urls w urls)).
  { revert He. trace_simpl. rewrite list_elem_of_singleton. intros ->. by left. }
  rewrite bind_snd in He. apply elem_of_app in He as [He|He].
  - apply gather_events in He as (task & Htask & He).
    apply list_elem_of_fmap in Htask as (v & -> & Hv).
    right; right; left. exists v. split; [done|].
    by apply (scrape_data_events w).
  - subst g. destruct (gather order (map (scrape_data w) (valid_urls w urls))).1
      as [all_results|]; [|by apply elem_of_nil in He].
    revert He. destruct (is_empty (concat _)); trace_simpl.
    + rewrite list_elem_of_singleton. intros ->. by left.
    + rewrite !elem_of_cons, elem_of_nil.
      intros [->|[->|[]]]; [by right; right; right|].
      left. by destruct (to_csv_ok w _ _).
Qed.

(** ** What gather returns *)

#[local] Instance by_index_total {A} : Total (@by_index A).
Proof. intros x y. unfold by_index. lia. Qed.

#[local] Instance by_index_trans {A} : Transitive (@by_index A).
Proof. intros x y z. unfold by_index. lia. Qed.

Lemma await_each_returned {A} (res : list (nat * Trace (outcome A))) l :
  Forall2 (fun it r => it.2.1 = Returned r.2 ∧ r.1 = it.1) res l →
  (await_each res).1 = Returned l.
Proof.
  induction 1 as [|[i t] [j a] res l [Ht Hi] _ IH]; [done|].
  simpl in *. rewrite bind_fst, Ht, bind_fst, IH. by subst.
Qed.

Lemma await_each_inv {A} (res : list (nat * Trace (outcome A))) l :
  (await_each res).1 = Returned l →
  Forall2 (fun it r => it.2.1 = Returned r.2 ∧ r.1 = it.1) res l.
Proof.
  revert l. induction res as [|[i t] res IH]; intros l; simpl.
  - intros [= <-]. constructor.
  - rewrite bind_fst. destruct t.1 as [a|] eqn:Ht; [|done].
    rewrite bind_fst. destruct (await_each res).1 as [l'|]; [|done].
    intros [= <-]. constructor; [done | by apply IH].
Qed.

Lemma await_each_raised {A} (res : list (nat * Trace (outcome A))) :
  Exists (fun it => it.2.1 = Raised) res → (await_each res).1 = Raised.
Proof.
  induction 1 as [[i t] res Ht|[i t] res _ IH]; simpl in *; rewrite bind_fst.
  - by rewrite Ht.
  - destruct t.1; [|done]. by rewrite bind_fst, IH.
Qed.

Lemma omap_index {A} (l : list A) :
  omap (fun i => pair i <$> l !! i) (seq 0 (length l)) = imap pair l.
Proof.
  induction l as [|x l IH] using rev_ind; [done|].
  rewrite length_app, seq_app, omap_app, imap_app. simpl. f_equal.
  - rewrite <-IH. apply list_omap_ext, Forall_Forall2_diag, Forall_seq.
    intros j Hj. by rewrite lookup_app_l by lia.
  - by rewrite list_lookup_middle, Nat.add_0_r.
Qed.

Lemma imap_pair_sorted {A} (l : list A) k :
  StronglySorted by_index (imap (fun j => pair (k + j)%nat) l).
Proof.
  revert k. induction l as [|x l IH]; intros k; [constructor|].
  rewrite imap_cons.
  rewrite (imap_ext _ (fun j => pair (S k + j)%nat))
    by (intros; simpl; f_equal; lia).
  constructor; [apply IH|].
  apply Forall_forall. intros [i y] (j & ? & [= -> ->] & _)%elem_of_lookup_imap.
  unfold by_index. simpl. lia.
Qed.

Lemma gather_returned {A} order (tasks : list (Trace (outcome A))) vs :
  order ≡ₚ seq 0 (length tasks) →
  Forall2 (fun t v => t.1 = Returned v) tasks vs →
  (gather order tasks).1 = Returned vs.
Proof.
  intros Hperm Hvs. unfold gather. rewrite bind_fst.
  set (l := omap (fun i => pair i <$> vs !! i) order).
  rewrite (await_each_returned _ l).
  - simpl. f_equal.
    assert (l ≡ₚ imap pair vs) as Hl.
    { assert (length tasks = length vs) as Hlen by (by eapply Forall2_length).
      unfold l. by rewrite Hperm, Hlen, omap_index. }
    rewrite (StronglySorted_unique_strong by_index _ (imap pair vs)).
    + rewrite fmap_imap. rewrite (imap_ext _ (const id)) by done.
      by rewrite imap_const, list_fmap_id.
    + intros [i x] [j y] Hx Hy Hij Hji. unfold by_index in *. simpl in *.
      assert (i = j) as -> by lia.
      rewrite merge_sort_Permutation, Hl in Hx.
      apply elem_of_lookup_imap in Hx as (? & ? & [= <- <-] & Hx).
      apply elem_of_lookup_imap in Hy as (? & ? & [= <- <-] & Hy).
      congruence.
    + apply StronglySorted_merge_sort; apply _.
    + apply (imap_pair_sorted vs 0).
    + by rewrite merge_sort_Permutation.
  - unfold l. clear Hperm l. induction order as [|i order IH]; [constructor|].
    simpl. destruct (tasks !! i) as [t|] eqn:Ht.
    + destruct (Forall2_lookup_l _ _ _ _ _ Hvs Ht) as (v & -> & Hv).
      simpl. by constructor.
    + assert (vs !! i = None) as ->; [|done].
      apply lookup_ge_None. apply lookup_ge_None in Ht.
      by rewrite <-(Forall2_length _ _ _ Hvs).
Qed.

Lemma gather_raised {A} order (tasks : list (Trace (outcome A))) :
  order ≡ₚ seq 0 (length tasks) →
  Exists (fun t => t.1 = Raised) tasks →
  (gather order tasks).1 = Raised.
Proof.
  unfold Trace in *. intros Hperm (t & Ht & Hr)%Exists_exists.
  apply list_elem_of_lookup in Ht as [i Hi].
  unfold gather. rewrite bind_fst, await_each_raised; [done|]. unfold Trace.
  apply Exists_exists. exists (i, t). split; [|done].
  apply list_elem_of_omap. exists i. split; [|by rewrite Hi].
  rewrite Hperm. apply elem_of_seq. apply lookup_lt_Some in Hi. lia.
Qed.

Lemma gather_inv {A} order (tasks : list (Trace (outcome A))) rs r :
  (gather order tasks).1 = Returned rs → r ∈ rs →
  ∃ t, t ∈ tasks ∧ t.1 = Returned r.
Proof.
  unfold gather. rewrite bind_fst. unfold Trace in *.
  destruct (await_each _).1 as [l|] eqn:Hl; [|done].
  simpl. intros [= <-] (x & -> & Hx)%list_elem_of_fmap.
  rewrite merge_sort_Permutation in Hx.
  apply await_each_inv in Hl.
  apply list_elem_of_lookup in Hx as [k Hk].
  destruct (Forall2_lookup_r _ _ _ _ _ Hl Hk) as ([i t] & Hit & Ht & _).
  apply list_elem_of_lookup_2, list_elem_of_omap in Hit as (j & _ & Hj).
  destruct (tasks !! j) as [t'|] eqn:Hlook; simplify_eq/=.
  exists t. split; [by eapply list_elem_of_lookup_2|done].
Qed.

(** ** How a run ends *)

Lemma concat_filter_nonempty {A} (ls : list (list A)) :
  concat (filter (fun sublist => negb (is_empty sublist)) ls) = concat ls.
Proof.
  induction ls as [|l ls IH]; [done|].
  rewrite filter_cons. destruct l; simpl; [done|]. by rewrite IH.
Qed.

Lemma main_fst w order urls filename :
  (main w order urls filename).1 =
  if is_empty (valid_urls w urls) then NoValidUrls
  else match (gather order (map (scrape_data w) (valid_urls w urls))).1 with
       | Raised => TaskRaised
       | Returned all_results =>
           if is_empty (concat all_results) then NoData
           else Dataset (concat all_results)
       end.
Proof.
  unfold main. rewrite !bind_fst. fold (valid_urls w urls).
  destruct (is_empty (valid_urls w urls)); [by rewrite bind_fst|].
  rewrite bind_fst.
  destruct (gather order (map (scrape_data w) (valid_urls w urls))).1
    as [all_results|]; [|done].
  rewrite concat_filter_nonempty.
  destruct (is_empty (concat all_results)); by rewrite !bind_fst.
Qed.

Lemma scrape_data_fst w u :
  (scrape_data w u).1 =
  match (fetch_url w u).1 with
  | None => Returned []
  | Some html =>
      if truthy html then
        match BeautifulSoup w html with
        | None => Raised
        | Some s =>
            match select_h1_h2_h3 s, find_all_p s with
            | Some hs, Some ps =>
                Returned (combined_data u (map strip hs) (map strip ps))
            | _, _ => Returned []
            end
        end
      else Returned []
  end.
Proof.
  unfold scrape_data. rewrite bind_fst.
  destruct (fetch_url w u).1 as [html|]; [|done].
  destruct (truthy html); simpl; [|done]. rewrite bind_fst.
  destruct (BeautifulSoup w html) as [[[hs|] [ps|]]|]; simpl; try done.
  destruct hs, ps; simpl; by rewrite ?bind_fst.
Qed.

Lemma combined_data_lookup u titles paragraphs i :
  (i < Nat.max (length titles) (length paragraphs))%nat →
  combined_data u titles paragraphs !! i
  = Some {| url := u;
            title := default [] (titles !! i);
            paragraph := default [] (paragraphs !! i) |}.
Proof.
  intros Hi. unfold combined_data.
  rewrite list_lookup_fmap, lookup_seq_lt by done. simpl. do 2 f_equal.
  - destruct (Nat.ltb_spec i (length titles)) as [Hlt|Hge].
    + destruct (lookup_lt_is_Some_2 titles i Hlt) as [x Hx].
      rewrite Hx. simpl. by apply nth_lookup_Some.
    + by rewrite (lookup_ge_None_2 titles i Hge).
  - destruct (Nat.ltb_spec i (length paragraphs)) as [Hlt|Hge].
    + destruct (lookup_lt_is_Some_2 paragraphs i Hlt) as [x Hx].
      rewrite Hx. simpl. by apply nth_lookup_Some.
    + by rewrite (lookup_ge_None_2 paragraphs i Hge).
Qed.

Lemma combined_data_length u titles paragraphs :
  length (combined_data u titles paragraphs)
  = Nat.max (length titles) (length paragraphs).
Proof. unfold combined_data. by rewrite length_map, length_seq. Qed.

Lemma combined_data_url u titles paragraphs r :
  r ∈ combined_data u titles paragraphs → url r = u.
Proof.
  unfold combined_data. by intros (i & -> & _)%list_elem_of_fmap.
Qed.

Lemma records_of_inv w u r :
  r ∈ records_of w u →
  url r = u ∧ ∃ html, (fetch_url w u).1 = Some html ∧ html ≠ [].
Proof.
  unfold records_of. rewrite scrape_data_fst.
  destruct (fetch_url w u).1 as [html|]; [|by intros ?%elem_of_nil].
  destruct html as [|c html]; simpl; [by intros ?%elem_of_nil|].
  intros Hr. split; [|by eexists].
  destruct (BeautifulSoup w (c :: html)) as [[[hs|] [ps|]]|]; simpl in Hr;
    try by apply elem_of_nil in Hr.
  by apply combined_data_url in Hr.
Qed.

(** Every record of the dataset was returned by the task of a surviving URL. *)
Lemma dataset_member w order urls filename r :
  r ∈ dataset_of (main w order urls filename).1 →
  ∃ v, v ∈ valid_urls w urls ∧ r ∈ records_of w v.
Proof.
  rewrite main_fst. destruct (is_empty (valid_urls w urls));
    [by intros ?%elem_of_nil|].
  destruct (gather order (map (scrape_data w) (valid_urls w urls))).1
    as [all_results|] eqn:Hg; [|by intros ?%elem_of_nil].
  intros Hr.
  assert (r ∈ concat all_results) as (rs & Hin & Hrs)%list_elem_of_In%in_concat.
  { destruct (is_empty (concat all_results)); [by apply elem_of_nil in Hr|done]. }
  apply list_elem_of_In in Hin, Hrs.
  destruct (gather_inv _ _ _ _ Hg Hin) as (t & (v & -> & Hv)%list_elem_of_fmap & Ht).
  exists v. split; [done|]. unfold records_of. by rewrite Ht.
Qed.

(** With every task awaited and none raising, the dataset is the
    concatenation of the tasks' records in the order of the surviving URLs. *)
Lemma main_dataset w order urls filename :
  order ≡ₚ seq 0 (length (valid_urls w urls)) →
  Forall (fun v => (scrape_data w v).1 ≠ Raised) (valid_urls w urls) →
  dataset_of (main w order urls filename).1
  = flat_map (records_of w) (valid_urls w urls).
Proof.
  rewrite main_fst. generalize (valid_urls w urls). intros valid Hperm Hall.
  destruct (is_empty valid) eqn:Hvalid; [by destruct valid|].
  rewrite (gather_returned _ _ (map (records_of w) valid)).
  - rewrite flat_map_concat_map.
    by destruct (concat (map (records_of w) valid)).
  - by rewrite length_map.
  - apply Forall2_fmap. apply Forall_Forall2_diag.
    rewrite Forall_forall in Hall. apply Forall_forall. intros v Hv.
    specialize (Hall v Hv). unfold records_of.
    by destruct (scrape_data w v).1.
Qed.

Lemma main_task_raised w order urls filename :
  order ≡ₚ seq 0 (length (valid_urls w urls)) →
  Exists (fun v => (scrape_data w v).1 = Raised) (valid_urls w urls) →
  (main w order urls filename).1 = TaskRaised.
Proof.
  rewrite main_fst. generalize (valid_urls w urls). intros valid Hperm Hex.
  destruct (is_empty valid) eqn:Hvalid; [destruct valid; by inversion Hex|].
  rewrite gather_raised; [done | by rewrite length_map |].
  apply Exists_exists in Hex as (v & Hv & Hr). apply Exists_exists.
  exists (scrape_data w v). split; [by apply list_elem_of_fmap_2|done].
Qed.

(** ** The retry loop *)

Lemma do_request_spec w o u left cur :
  ∃ m, (1 ≤ m ≤ S left)%nat
       ∧ Retry.do_request w o u left cur
         = (session_request w u (cur + m), attempts_trace o u cur m)
       ∧ (∀ k, (cur < k < cur + m)%nat →
              Retry.retried o (session_request w u k) = true)
       ∧ ((m ≤ left)%nat →
          Retry.retried o (session_request w u (cur + m)) = false).
Proof.
  revert cur. induction left as [|left IH]; intros cur.
  - exists 1%nat. split; [lia|]. split; [|split; intros; lia].
    unfold attempts_trace. simpl.
    rewrite (proj2 (Nat.ltb_ge _ _)) by lia.
    by replace (cur + 1)%nat with (S cur) by lia.
  - simpl. destruct (Retry.retried o (session_request w u (S cur))) eqn:Hr.
    + destruct (IH (S cur)) as (m & Hm & Heq & Hbefore & Hlast).
      exists (S m). split; [lia|]. split; [|split].
      * unfold bind at 1. simpl. unfold bind at 1. simpl. rewrite Heq. simpl.
        unfold attempts_trace.
        replace (cur + S m)%nat with (S cur + m)%nat by lia.
        simpl. rewrite (proj2 (Nat.ltb_lt _ _)) by lia. done.
      * intros k Hk. destruct (decide (k = S cur)) as [->|]; [done|].
        apply Hbefore. lia.
      * intros Hle. replace (cur + S m)%nat with (S cur + m)%nat by lia.
        apply Hlast. lia.
    + exists 1%nat. split; [lia|]. split; [|split].
      * unfold attempts_trace. simpl.
        rewrite (proj2 (Nat.ltb_ge _ _)) by lia.
        by replace (cur + 1)%nat with (S cur) by lia.
      * intros; lia.
      * intros _. by replace (cur + 1)%nat with (S cur) by lia.
Qed.

Lemma backoff_trace_attempts w u n :
  (n ≤ 3)%nat → attempts_trace (retry_options w) u 0 n = backoff_trace u n.
Proof.
  intros Hn. destruct n as [|[|[|[|n]]]]; try lia; reflexivity.
Qed.

(** The retry client under the policy of line 122. *)
Lemma retry_get_spec w u :
  ∃ n, (1 ≤ n ≤ 3)%nat
       ∧ Retry.get w (retry_options w) u
         = (session_request w u n, backoff_trace u n)
       ∧ (∀ k, (0 < k < n)%nat →
              Retry.retried (retry_options w) (session_request w u k) = true)
       ∧ ((n < 3)%nat →
          Retry.retried (retry_options w) (session_request w u n) = false).
Proof.
  destruct (do_request_spec w (retry_options w) u 2 0) as (n & Hn & Heq & Hb & Hl).
  exists n. split; [lia|]. split; [|split].
  - unfold Retry.get.
    change (Retry.attempts (retry_options w) - 1)%nat with 2%nat.
    by rewrite Heq, backoff_trace_attempts by lia.
  - intros k Hk. apply Hb. lia.
  - intros Hlt. apply Hl. lia.
Qed.

Lemma backoff_trace_events u n :
  (n ≤ 3)%nat →
  filter (fun e => is_logged e = false) (backoff_trace u n) = backoff_trace u n
  ∧ requests (backoff_trace u n) = n.
Proof.
  intros Hn. destruct n as [|[|[|[|n]]]]; try lia; by split.
Qed.

Lemma status_retried_500 w status :
  Retry.status_retried (retry_options w) status = true ↔ (500 ≤ status)%Z.
Proof.
  unfold Retry.status_retried. simpl.
  rewrite orb_false_r, andb_true_r. apply Z.leb_le.
Qed.

Lemma fetch_url_spec w u :
  ∃ n, (1 ≤ n ≤ 3)%nat
       ∧ (fetch_url w u).1 = fetched (session_request w u n)
       ∧ filter (fun e => is_logged e = false) (fetch_url w u).2 = backoff_trace u n
       ∧ requests (fetch_url w u).2 = n
       ∧ (∀ k, (0 < k < n)%nat →
              Retry.retried (retry_options w) (session_request w u k) = true)
       ∧ ((n < 3)%nat →
          Retry.retried (retry_options w) (session_request w u n) = false).
Proof.
  destruct (retry_get_spec w u) as (n & Hn & Heq & Hb & Hl).
  destruct (backoff_trace_events u n) as [Hf Hr]; [lia|].
  exists n. split; [done|]. unfold fetch_url. rewrite bind_fst, bind_snd, Heq.
  simpl. unfold requests in *. rewrite !filter_app, length_app, Hf, Hr.
  assert (∀ x, (fetch_failed u x).1 = None
               ∧ filter (fun e => is_logged e = false) (fetch_failed u x).2 = []
               ∧ filter (fun e => is_session_get e = true) (fetch_failed u x).2 = [])
    as Hfail by (by intros []).
  destruct (session_request w u n) as [status [html|x]|x]; simpl;
    [destruct (400 <=? status)%Z..|];
    try (destruct (Hfail (ClientResponseError status)) as (-> & -> & ->));
    try (destruct (Hfail x) as (-> & -> & ->));
    simpl; rewrite ?app_nil_r, ?Nat.add_0_r; done.
Qed.

(** * The claims *)

(** ** C1: URL syntax validation *)

(** C1, as stated, fails: a URL with a tab after the scheme is accepted by
    [is_valid_url] although it has embedded whitespace, so validity is not
    "the scheme followed by one or more non-whitespace characters". *)
Lemma C1_counterexample :
  ¬ (∀ s, is_valid_url s = true ↔ spec_valid_url s).
Proof.
  intros H. assert (spec_valid_url tab_url) as (scheme & rest & Hs & Hw & _ & Hall).
  { apply H. reflexivity. }
  assert (9 ∈ rest) as Htab.
  { destruct Hw as [Hw|Hw]; apply Forall2_length in Hw;
      repeat (destruct scheme as [|? scheme]; try discriminate Hw);
      vm_compute in Hs; simplify_eq; apply list_elem_of_In; simpl; auto. }
  rewrite Forall_forall in Hall. by apply Hall in Htab.
Qed.

(** C1, amended: [is_valid_url] accepts exactly the strings that spell
    http:// or https:// (letters in any case, as re.IGNORECASE folds them)
    followed by one or more characters none of which is the space U+0020;
    a URL that it rejects is never probed and never fetched in any run. *)
Theorem C1_valid_url_filter w order urls filename s :
  (is_valid_url s = true ↔
   ∃ scheme rest,
     s = scheme ++ rest
     ∧ (ci_word scheme (cp "http://") ∨ ci_word scheme (cp "https://"))
     ∧ rest ≠ [] ∧ 32 ∉ rest)
  ∧ (is_valid_url s = false →
     (ProbeGet s ∉ (main w order urls filename).2)
     ∧ ∀ k, SessionGet s k ∉ (main w order urls filename).2).
Proof.
  split; [apply is_valid_url_iff|]. intros Hs. split.
  - intros [H|[[_ H]|[(v & _ & [])|H]]]%main_events; try done. congruence.
  - intros k [H|[[]|[(v & Hv & <-)|H]]]%main_events; try done.
    apply elem_of_valid_urls in Hv as (_ & Hv & _). congruence.
Qed.

Lemma C1_witness :
  is_valid_url (cp "not-a-url") = false
  ∧ ProbeGet (cp "not-a-url") ∉ (main site [0%nat] [cp "not-a-url"; good_url] (cp "out")).2.
Proof.
  split; [reflexivity|].
  apply (C1_valid_url_filter site [0%nat] [cp "not-a-url"; good_url] (cp "out")).
  reflexivity.
Defined.

(** ** C2: the soft-404 heuristic of the probe *)

Lemma startswith_app s post : startswith (s ++ post) s = true.
Proof.
  induction s as [|c s IH]; simpl; [done|]. by rewrite N.eqb_refl.
Qed.

Lemma contains_startswith needle hay :
  startswith hay needle = true → contains needle hay = true.
Proof. intros H. destruct hay; unfold contains; by rewrite H. Qed.

Lemma contains_cons needle c hay :
  contains needle hay = true → contains needle (c :: hay) = true.
Proof.
  intros H. change (contains needle (c :: hay))
    with (startswith (c :: hay) needle || contains needle hay).
  rewrite H. apply orb_true_r.
Qed.

Lemma contains_middle needle pre post :
  contains needle (pre ++ needle ++ post) = true.
Proof.
  induction pre as [|c pre IH].
  - simpl. apply contains_startswith, startswith_app.
  - simpl. by apply contains_cons.
Qed.

Lemma lower_from_app w before pre s :
  ∃ lowered, lower_from w before (pre ++ s)
             = lowered ++ lower_from w (before ++ pre) s.
Proof.
  revert before. induction pre as [|c pre IH]; intros before; simpl.
  - exists []. by rewrite app_nil_r.
  - destruct (IH (before ++ [c])) as [lowered ->]. eexists.
    by rewrite (assoc_L (++)), <-(assoc_L (++) before).
Qed.

Lemma lower_from_ascii w before mid phrase post :
  Forall2 (fun c p => ascii_lower c = p) mid phrase →
  Forall (fun p => p < 128) phrase →
  lower_from w before (mid ++ post)
  = phrase ++ lower_from w (before ++ mid) post.
Proof.
  intros Hmid. revert before.
  induction Hmid as [|c p mid phrase Hc _ IH]; intros before Hascii; simpl.
  - by rewrite app_nil_r.
  - inversion_clear Hascii as [|?? Hp Hascii'].
    rewrite IH, <-(assoc_L (++)) by done.
    assert (c < 128) as Hlt.
    { unfold ascii_lower, is_ascii_upper in Hc.
      destruct (65 <=? c); destruct (c <=? 90); simpl in Hc; lia. }
    apply N.ltb_lt in Hlt. by rewrite Hlt, Hc.
Qed.

Lemma occurs_lower_contains w phrase text :
  Forall (fun p => p < 128) phrase →
  occurs_any_case phrase text →
  contains phrase (lower w text) = true.
Proof.
  intros Hascii (pre & mid & post & -> & Hmid). unfold lower.
  destruct (lower_from_app w [] pre (mid ++ post)) as [lowered ->].
  rewrite (lower_from_ascii _ _ _ phrase) by done.
  apply contains_middle.
Qed.

Lemma startswith_inv s p : startswith s p = true → ∃ post, s = p ++ post.
Proof.
  revert s. induction p as [|c p IH]; intros s; simpl.
  - intros _. by exists s.
  - destruct s as [|d s]; [done|].
    intros [->%N.eqb_eq [post ->]%IH]%andb_true_iff. by exists post.
Qed.

Lemma contains_inv needle hay :
  contains needle hay = true → ∃ pre post, hay = pre ++ needle ++ post.
Proof.
  induction hay as [|c hay IH].
  - unfold contains. rewrite orb_false_r. intros [post ->]%startswith_inv.
    by exists [], post.
  - change (contains needle (c :: hay))
      with (startswith (c :: hay) needle || contains needle hay).
    intros [[post ->]%startswith_inv | (pre & post & ->)%IH]%orb_true_iff.
    + by exists [], post.
    + by exists (c :: pre), post.
Qed.

Lemma lower_from_prefix w before text phrase post :
  unicode_lower_sound w →
  Forall (fun p => p < 128 ∧ p ≠ 105 ∧ p ≠ 107) phrase →
  lower_from w before text = phrase ++ post →
  ∃ mid rest,
    text = mid ++ rest ∧ Forall2 (fun c p => ascii_lower c = p) mid phrase.
Proof.
  intros Hw Hplain. revert before text.
  induction Hplain as [|p phrase Hp _ IH]; intros before text Heq.
  - by exists [], text.
  - destruct text as [|c text]; [done|]. simpl in Heq.
    destruct (N.ltb_spec c 128) as [Hc|Hc].
    + injection Heq as Hcp Heq.
      destruct (IH _ _ Heq) as (mid & rest & -> & Hmid).
      exists (c :: mid), rest. split; [done|]. by constructor.
    + destruct (Hw before c text Hc) as [Hne Hall].
      destruct (unicode_lower w before c text) as [|x piece]; [done|].
      injection Heq as -> _. inversion_clear Hall as [|?? Hx _]. lia.
Qed.

Lemma occurs_cons phrase c text :
  occurs_any_case phrase text → occurs_any_case phrase (c :: text).
Proof.
  intros (pre & mid & post & -> & Hmid). by exists (c :: pre), mid, post.
Qed.

Lemma lower_from_occurs w before text phrase pre post :
  unicode_lower_sound w →
  Forall (fun p => p < 128 ∧ p ≠ 105 ∧ p ≠ 107) phrase →
  lower_from w before text = pre ++ phrase ++ post →
  occurs_any_case phrase text.
Proof.
  intros Hw Hplain. revert before pre.
  induction text as [|c text IH]; intros before pre Heq.
  - destruct pre; [|done]. destruct phrase; [|done].
    exists [], [], []. split; [done|constructor].
  - destruct pre as [|x pre].
    { destruct (lower_from_prefix w before (c :: text) phrase post Hw Hplain Heq)
        as (mid & rest & Htext & Hmid).
      by exists [], mid, rest. }
    apply occurs_cons. simpl in Heq.
    destruct (N.ltb_spec c 128) as [Hc|Hc].
    + injection Heq as _ Heq. by apply (IH (before ++ [c]) pre).
    + destruct (Hw before c text Hc) as [_ Hall].
      change (x :: pre ++ phrase ++ post) with ((x :: pre) ++ phrase ++ post) in Heq.
      apply app_eq_inv in Heq as [(k & Hpiece & Hrest)|(k & Hpre & Hrest)].
      * destruct k as [|y k]; [by apply (IH (before ++ [c]) [])|].
        destruct Hplain as [|p phrase Hp _].
        { exists [], [], text. split; [done|constructor]. }
        injection Hrest as <- _. rewrite Hpiece in Hall.
        apply Forall_app in Hall as [_ Hall].
        inversion_clear Hall as [|?? Hy _]. lia.
      * by apply (IH (before ++ [c]) k).
Qed.

Lemma phrase_plain :
  Forall (fun p => p < 128 ∧ p ≠ 105 ∧ p ≠ 107) (cp "page not found").
Proof. apply (bool_decide_unpack _). by vm_compute. Qed.

Lemma contains_lower_occurs w text :
  unicode_lower_sound w →
  contains (cp "page not found") (lower w text) = true →
  occurs_any_case (cp "page not found") text.
Proof.
  intros Hw (pre & post & Heq)%contains_inv.
  apply (lower_from_occurs w [] text _ pre post Hw phrase_plain Heq).
Qed.

Lemma probe_fst w u :
  (is_url_alive_and_valid w u).1 =
  match httpx_get w u with
  | ProbeResponse status_code text =>
      (status_code =? 200)%Z
      && negb (contains (cp "page not found") (lower w text))
  | ProbeRaises => false
  end.
Proof.
  unfold is_url_alive_and_valid. rewrite bind_fst.
  destruct (httpx_get w u) as [status_code text|]; [|by rewrite bind_fst].
  destruct (status_code =? 200)%Z; [|by rewrite bind_fst].
  destruct (contains _ _); by rewrite ?bind_fst.
Qed.

(** C2: a probe answered with status 200 and a body that contains
    "page not found" in any letter case returns False on the soft-404 branch
    (the warning of line 38), so the URL is not among the surviving URLs and
    is never fetched; the probe returns True exactly when the status is 200
    and the lowered body does not contain the phrase; and, [str.lower] being
    what it is above ASCII, exactly when the status is 200 and the phrase
    does not occur in the body in any letter case. *)
Theorem C2_soft_404 w order urls filename u :
  (∀ text,
     httpx_get w u = ProbeResponse 200 text →
     occurs_any_case (cp "page not found") text →
     is_url_alive_and_valid w u
     = (false, [ProbeGet u; Logged WARNING (PageNotFoundDetected u)])
     ∧ (u ∉ valid_urls w urls)
     ∧ ∀ k, SessionGet u k ∉ (main w order urls filename).2)
  ∧ ((is_url_alive_and_valid w u).1 = true ↔
     ∃ text, httpx_get w u = ProbeResponse 200 text
             ∧ contains (cp "page not found") (lower w text) = false)
  ∧ (unicode_lower_sound w →
     ((is_url_alive_and_valid w u).1 = true ↔
      ∃ text, httpx_get w u = ProbeResponse 200 text
              ∧ ¬ occurs_any_case (cp "page not found") text)).
Proof.
  split; [|split].
  - intros text Hget Hocc.
    assert (is_url_alive_and_valid w u
            = (false, [ProbeGet u; Logged WARNING (PageNotFoundDetected u)]))
      as Hprobe.
    { unfold is_url_alive_and_valid. rewrite Hget. simpl.
      rewrite occurs_lower_contains; [done| |done].
      vm_compute. repeat constructor. }
    assert (u ∉ valid_urls w urls) as Hout.
    { rewrite elem_of_valid_urls, Hprobe. simpl. by intros (_ & _ & ?). }
    repeat split; [done..|].
    intros k [H|[[]|[(v & Hv & <-)|H]]]%main_events; done.
  - rewrite probe_fst. destruct (httpx_get w u) as [status_code text|].
    + destruct (Z.eqb_spec status_code 200) as [->|Hne]; simpl.
      * rewrite negb_true_iff. split; [by exists text|].
        by intros (text' & [= <-] & Hc').
      * split; [done|]. by intros (text' & [= ? _] & _).
    + split; [done|]. by intros (text' & ? & _).
  - intros Hw. rewrite probe_fst.
    destruct (httpx_get w u) as [status_code text|].
    + destruct (Z.eqb_spec status_code 200) as [->|Hne]; simpl.
      * rewrite negb_true_iff. split.
        -- intros Hc. exists text. split; [done|]. intros Hocc.
           apply (occurs_lower_contains w) in Hocc; [congruence|].
           apply (Forall_impl _ _ _ phrase_plain). by intros p [? _].
        -- intros (text' & [= <-] & Hocc). apply not_true_is_false.
           intros Hc. by apply Hocc, (contains_lower_occurs w).
      * split; [done|]. by intros (text' & [= ? _] & _).
    + split; [done|]. by intros (text' & ? & _).
Qed.

Lemma C2_witness :
  (is_url_alive_and_valid site soft404_url
   = (false, [ProbeGet soft404_url; Logged WARNING (PageNotFoundDetected soft404_url)])
   ∧ (soft404_url ∉ valid_urls site [soft404_url; good_url])
   ∧ ∀ k, SessionGet soft404_url k
          ∉ (main site [0%nat] [soft404_url; good_url] (cp "out")).2)
  ∧ ((is_url_alive_and_valid site good_url).1 = true ↔
     ∃ text, httpx_get site good_url = ProbeResponse 200 text
             ∧ ¬ occurs_any_case (cp "page not found") text).
Proof.
  split.
  - apply (C2_soft_404 site [0%nat] [soft404_url; good_url] (cp "out") soft404_url)
      with (text := soft404_html).
    + reflexivity.
    + exists (cp "<h1>Oops</h1><p>"), (cp "Page Not Found"), (cp "</p>").
      split; [reflexivity|]. vm_compute. repeat constructor.
  - apply (C2_soft_404 site [0%nat] [soft404_url; good_url] (cp "out") good_url).
    intros before c after Hc. split; [done|].
    constructor; [by left|constructor].
Defined.

(** ** C3: the number of requests of a fetch *)

(** C3: a fetch makes at least one and at most three requests; its requests
    and waits are those of exponential backoff (request k, unless it is the
    last, is followed by a wait of 100 * 2^k ms, so each wait doubles the
    one before); and when the first request is answered with a status below
    400 it is the only request. *)
Theorem C3_fetch_attempts w u :
  (1 ≤ requests (fetch_url w u).2 ≤ 3)%nat
  ∧ filter (fun e => is_logged e = false) (fetch_url w u).2
    = backoff_trace u (requests (fetch_url w u).2)
  ∧ (∀ status b,
       session_request w u 1 = Response status b → (status < 400)%Z →
       requests (fetch_url w u).2 = 1%nat).
Proof.
  destruct (fetch_url_spec w u) as (n & Hn & _ & Htrace & -> & Hbefore & _).
  repeat split; [lia..|done|].
  intros status b Hreply Hok.
  destruct (decide (n = 1%nat)) as [|Hne]; [done|].
  specialize (Hbefore 1%nat ltac:(lia)). rewrite Hreply in Hbefore.
  unfold Retry.retried in Hbefore. apply status_retried_500 in Hbefore. lia.
Qed.

Lemma C3_witness : requests (fetch_url site good_url).2 = 1%nat.
Proof.
  apply (C3_fetch_attempts site good_url) with (status := 200%Z) (b := Text good_html).
  - reflexivity.
  - lia.
Defined.

(** ** C4: failed fetches *)

(** C4, as stated, fails: a 404 answer is outside the 2xx/3xx range, yet the
    retry client (created with raise_for_status=False) hands it over after
    one request and no second request is made. *)
Lemma C4_counterexample :
  ¬ (∀ w u status b,
       session_request w u 1 = Response status b →
       (status < 200 ∨ 400 ≤ status)%Z →
       SessionGet u 2 ∈ (fetch_url w u).2).
Proof.
  intros H.
  specialize (H site missing_url 404%Z (Text (cp "not here")) eq_refl ltac:(lia)).
  vm_compute in H. apply list_elem_of_In in H. simpl in H.
  destruct H as [H|[H|[]]]; discriminate H.
Qed.

Lemma flat_map_records_except w u valid :
  records_of w u = [] →
  flat_map (records_of w) (filter (fun v => v ≠ u) valid)
  = flat_map (records_of w) valid.
Proof.
  intros Hu. induction valid as [|v valid IH]; [done|].
  rewrite filter_cons. simpl. case_decide as Hv.
  - simpl. by rewrite IH.
  - subst v. by rewrite IH, Hu.
Qed.

Lemma records_of_failed w u : (fetch_url w u).1 = None → records_of w u = [].
Proof. intros H. unfold records_of. by rewrite scrape_data_fst, H. Qed.

(** C4, amended: [fetch_url] returns a body only when the reply that the
    retry client hands over is a response with a status below 400; a
    first answer with a 4xx status is handed over at once (one request, no
    retry) and logged as a client error; answers with a status of 500 or
    above are retried up to the third request, after which the fetch fails.
    A failed fetch makes the task return no records without raising: the
    dataset holds no record of that URL, and when every task is awaited and
    none raises it is the concatenation of the records of the other
    surviving URLs. *)
Theorem C4_failed_fetch w order urls filename u :
  (∀ html, (fetch_url w u).1 = Some html →
     ∃ n status, (1 ≤ n ≤ 3)%nat
       ∧ session_request w u n = Response status (Text html) ∧ (status < 400)%Z)
  ∧ (∀ status b,
       session_request w u 1 = Response status b → (400 ≤ status < 500)%Z →
       fetch_url w u = (None, [SessionGet u 1; Logged ERROR (ClientError u status)]))
  ∧ ((∀ k, (1 ≤ k ≤ 3)%nat →
        ∃ status b, session_request w u k = Response status b ∧ (500 ≤ status)%Z) →
     (fetch_url w u).1 = None ∧ requests (fetch_url w u).2 = 3%nat)
  ∧ ((fetch_url w u).1 = None →
     (scrape_data w u).1 = Returned []
     ∧ (∀ r, r ∈ dataset_of (main w order urls filename).1 → url r ≠ u)
     ∧ (order ≡ₚ seq 0 (length (valid_urls w urls)) →
        Forall (fun v => (scrape_data w v).1 ≠ Raised) (valid_urls w urls) →
        dataset_of (main w order urls filename).1
        = flat_map (records_of w) (filter (fun v => v ≠ u) (valid_urls w urls)))).
Proof.
  repeat split.
  - intros html Hhtml.
    destruct (fetch_url_spec w u) as (n & Hn & Hval & _).
    rewrite Hhtml in Hval. unfold fetched in Hval.
    destruct (session_request w u n) as [status [html'|]|] eqn:Hreply; try done.
    destruct (Z.leb_spec 400 status); simplify_eq. exists n, status.
    split; [lia|]. by split.
  - intros status b Hreply [Hlo Hhi].
    unfold fetch_url, Retry.get. simpl. rewrite Hreply.
    assert (Retry.retried (retry_options w) (Response status b) = false) as ->.
    { apply not_true_is_false. unfold Retry.retried.
      intros H%status_retried_500. lia. }
    apply Z.leb_le in Hlo. unfold bind; simpl. by rewrite Hlo.
  - destruct (fetch_url_spec w u) as (n & Hn & -> & _).
    destruct (H n Hn) as (status & b & -> & Hst). unfold fetched.
    apply Z.leb_le in Hst. destruct b; [|done].
    by rewrite (proj2 (Z.leb_le 400 status)) by (apply Z.leb_le in Hst; lia).
  - destruct (fetch_url_spec w u) as (n & Hn & _ & _ & -> & _ & Hlast).
    destruct (decide (n = 3%nat)) as [|Hne]; [done|].
    specialize (Hlast ltac:(lia)).
    destruct (H n Hn) as (status & b & Hreply & Hst). rewrite Hreply in Hlast.
    rewrite <-(status_retried_500 w) in Hst. unfold Retry.retried in Hlast.
    congruence.
  - by rewrite scrape_data_fst, H.
  - intros r (v & _ & Hr)%dataset_member Hu.
    apply records_of_inv in Hr as [Hv (html & Hf & _)].
    assert (v = u) as -> by congruence. congruence.
  - intros Hperm Hall. rewrite main_dataset by done.
    symmetry. by apply flat_map_records_except, records_of_failed.
Qed.

Lemma C4_witness :
  fetch_url site missing_url
  = (None, [SessionGet missing_url 1; Logged ERROR (ClientError missing_url 404)])
  ∧ ((fetch_url site down_url).1 = None
     ∧ requests (fetch_url site down_url).2 = 3%nat)
  ∧ (∃ n status, (1 ≤ n ≤ 3)%nat
       ∧ session_request site flaky_url n = Response status (Text long_html)
       ∧ (status < 400)%Z)
  ∧ dataset_of (main site [1; 0]%nat [missing_url; good_url] (cp "out")).1
    = flat_map (records_of site)
        (filter (fun v => v ≠ missing_url) (valid_urls site [missing_url; good_url])).
Proof.
  destruct (C4_failed_fetch site [1; 0]%nat [missing_url; good_url] (cp "out")
              missing_url) as (_ & Hclient & _ & Hfailed).
  destruct (C4_failed_fetch site [] [] [] down_url) as (_ & _ & Hserver & _).
  destruct (C4_failed_fetch site [] [] [] flaky_url) as (Hbody & _).
  split; [|split; [|split]].
  - apply (Hclient 404%Z (Text (cp "not here"))); [reflexivity | lia].
  - apply Hserver. intros k _. exists 503%Z, (Text []). split; [reflexivity | lia].
  - apply Hbody. reflexivity.
  - apply Hfailed; [reflexivity | |].
    + change (valid_urls site [missing_url; good_url]) with [missing_url; good_url].
      apply perm_swap.
    + change (valid_urls site [missing_url; good_url]) with [missing_url; good_url].
      repeat constructor; by vm_compute.
Defined.

(** ** C5: positional pairing *)

(** C5, as stated, fails in its example: on a page with two headings and
    five paragraphs whose first heading is blank, record 0 has the empty
    title, so records 0-1 need not have non-empty titles. *)
Lemma C5_counterexample :
  ¬ (∀ w u html s hs ps,
       (fetch_url w u).1 = Some html → html ≠ [] →
       BeautifulSoup w html = Some s →
       select_h1_h2_h3 s = Some hs → find_all_p s = Some ps →
       length hs = 2%nat → length ps = 5%nat →
       ∃ R, (scrape_data w u).1 = Returned R
         ∧ length R = 5%nat
         ∧ ∀ i, (i < 2)%nat → ∃ r, R !! i = Some r ∧ title r ≠ []).
Proof.
  intros H.
  destruct (H site untitled_url untitled_html
              (Soup (Some [cp " "; cp "H1"])
                    (Some [cp "0"; cp "1"; cp "2"; cp "3"; cp "4"]))
              [cp " "; cp "H1"] [cp "0"; cp "1"; cp "2"; cp "3"; cp "4"])
    as (R & HR & _ & Htitle); try reflexivity; [discriminate|].
  vm_compute in HR. injection HR as <-.
  destruct (Htitle 0%nat ltac:(lia)) as (r & [= <-] & Hr). by apply Hr.
Qed.

(** C5, amended: for a fetched, non-empty body that parses, with T the
    stripped heading texts and P the stripped paragraph texts in document
    order, the task returns exactly max(len T, len P) records; record i
    carries the URL, T[i] (the empty string from len T on) and P[i] (the
    empty string from len P on).  With 2 headings and 5 paragraphs there are
    5 records: records 0-1 carry the stripped texts of the two headings
    (empty for a blank heading), records 2-4 an empty title, and all five
    their paragraph. *)
Theorem C5_positional_pairing w u html s hs ps :
  (fetch_url w u).1 = Some html → html ≠ [] →
  BeautifulSoup w html = Some s →
  select_h1_h2_h3 s = Some hs → find_all_p s = Some ps →
  let T := map strip hs in
  let P := map strip ps in
  ∃ R, (scrape_data w u).1 = Returned R
    ∧ length R = Nat.max (length T) (length P)
    ∧ (∀ i, (i < length R)%nat →
         R !! i = Some {| url := u;
                          title := default [] (T !! i);
                          paragraph := default [] (P !! i) |})
    ∧ (length T = 2%nat → length P = 5%nat →
       length R = 5%nat
       ∧ (∀ i, (i < 2)%nat → title <$> R !! i = T !! i)
       ∧ (∀ i, (2 ≤ i < 5)%nat → title <$> R !! i = Some [])
       ∧ (∀ i, (i < 5)%nat → paragraph <$> R !! i = P !! i)).
Proof.
  intros Hfetch Hne Hsoup Hhs Hps T P.
  exists (combined_data u T P).
  assert (∀ i, (i < length (combined_data u T P))%nat →
            combined_data u T P !! i
            = Some {| url := u; title := default [] (T !! i);
                      paragraph := default [] (P !! i) |}) as Hlook.
  { intros i Hi. apply combined_data_lookup.
    by rewrite <-(combined_data_length u). }
  split; [|split; [apply combined_data_length|split; [done|]]].
  - rewrite scrape_data_fst, Hfetch. destruct html; [done|]. simpl.
    by rewrite Hsoup, Hhs, Hps.
  - intros HT HP.
    assert (length (combined_data u T P) = 5%nat) as Hlen
      by (rewrite combined_data_length; lia).
    split; [done|]. repeat split; intros i Hi; rewrite Hlook by lia; simpl.
    + destruct (lookup_lt_is_Some_2 T i) as [t ->]; [lia|done].
    + by rewrite (lookup_ge_None_2 T i) by lia.
    + destruct (lookup_lt_is_Some_2 P i) as [p ->]; [lia|done].
Qed.

Lemma C5_witness :
  ∃ R, (scrape_data site flaky_url).1 = Returned R
    ∧ length R = 5%nat
    ∧ (∀ i, (i < 2)%nat → title <$> R !! i = [cp "H0"; cp "H1"] !! i)
    ∧ (∀ i, (2 ≤ i < 5)%nat → title <$> R !! i = Some [])
    ∧ (∀ i, (i < 5)%nat →
         paragraph <$> R !! i = [cp "0"; cp "1"; cp "2"; cp "3"; cp "4"] !! i).
Proof.
  destruct (C5_positional_pairing site flaky_url long_html
              (Soup (Some [cp "H0"; cp "H1"])
                    (Some [cp "0"; cp "1"; cp "2"; cp "3"; cp "4"]))
              [cp "H0"; cp "H1"] [cp "0"; cp "1"; cp "2"; cp "3"; cp "4"])
    as (R & HR & _ & _ & Hpair); try reflexivity; [discriminate|].
  exists R. split; [exact HR|]. apply Hpair; reflexivity.
Defined.

(** ** C6: exceptions during extraction *)

(** A task raises exactly when its body is fetched, is not empty, and the
    constructor of the parser raises on it. *)
Lemma scrape_data_raised_iff w u :
  (scrape_data w u).1 = Raised ↔
  ∃ html, (fetch_url w u).1 = Some html ∧ html ≠ [] ∧ BeautifulSoup w html = None.
Proof.
  rewrite scrape_data_fst. split.
  - destruct (fetch_url w u).1 as [[|c html]|]; simpl; try done.
    destruct (BeautifulSoup w (c :: html)) as [[[hs|] [ps|]]|] eqn:Hs; try done.
    intros _. by exists (c :: html).
  - intros (html & -> & Hne & Hs). destruct html; [done|]. simpl. by rewrite Hs.
Qed.

(** The part of C6 that the code does provide: once the tree is built, an
    exception of the queries is caught and logged, and a page without
    headings and paragraphs gives no records and a warning. *)
Lemma scrape_data_parsed w u html s :
  (fetch_url w u).1 = Some html → html ≠ [] → BeautifulSoup w html = Some s →
  (select_h1_h2_h3 s = None ∨ find_all_p s = None →
   scrape_data w u
   = (Returned [], (fetch_url w u).2 ++ [Parse html; Logged ERROR (ParsingError u)]))
  ∧ (select_h1_h2_h3 s = Some [] → find_all_p s = Some [] →
     scrape_data w u
     = (Returned [], (fetch_url w u).2
                     ++ [Parse html; Logged WARNING (NoTitlesOrParagraphs u)])).
Proof.
  intros Hfetch Hne Hs. destruct html; [done|]. destruct s as [hs ps].
  split; simpl; intros H; [|intros H'];
    unfold scrape_data; unfold bind at 1; rewrite Hfetch; simpl; rewrite Hs;
    simpl.
  - destruct H as [->| ->]; [|destruct hs]; reflexivity.
  - rewrite H, H'. reflexivity.
Qed.

(** C6, the failing input: the markup of the good page is fetched, the
    constructor of the parser rejects it at line 82, outside the try block;
    the task raises instead of returning the empty sequence, and the
    exception leaves [main]. *)
Theorem C6_parser_exception_propagates :
  (fetch_url rejecting_site good_url).1 = Some good_html
  ∧ BeautifulSoup rejecting_site good_html = None
  ∧ (scrape_data rejecting_site good_url).1 = Raised
  ∧ (main rejecting_site [0%nat] [good_url] (cp "out")).1 = TaskRaised.
Proof. by vm_compute. Qed.

(** ** C7: where the records of the dataset come from *)

(** C7: every record of the dataset of a run carries a URL of the input
    list that passed [is_valid_url] and the probe, and whose fetch did not
    fail. *)
Theorem C7_dataset_sources w order urls filename r :
  r ∈ dataset_of (main w order urls filename).1 →
  url r ∈ urls
  ∧ is_valid_url (url r) = true
  ∧ (is_url_alive_and_valid w (url r)).1 = true
  ∧ (fetch_url w (url r)).1 ≠ None.
Proof.
  intros (v & Hv & Hr)%dataset_member.
  apply records_of_inv in Hr as (-> & html & Hfetch & _).
  apply elem_of_valid_urls in Hv as (? & ? & ?).
  repeat split; [done..|]. by rewrite Hfetch.
Qed.

Lemma C7_witness :
  good_url ∈ [cp "not-a-url"; good_url; missing_url]
  ∧ is_valid_url good_url = true
  ∧ (is_url_alive_and_valid site good_url).1 = true
  ∧ (fetch_url site good_url).1 ≠ None.
Proof.
  apply (C7_dataset_sources site [1; 0]%nat [cp "not-a-url"; good_url; missing_url]
           (cp "out") (Row good_url (cp "Intro") (cp "A"))).
  vm_compute. left.
Defined.

(** ** C8: the order of the dataset *)

Lemma raised_or_not w (valid : list str) :
  Forall (fun v => (scrape_data w v).1 ≠ Raised) valid
  ∨ Exists (fun v => (scrape_data w v).1 = Raised) valid.
Proof.
  induction valid as [|v valid [IH|IH]].
  - left. constructor.
  - destruct (scrape_data w v).1 eqn:Hv.
    + left. constructor; [by rewrite Hv | done].
    + right. by left.
  - right. by right.
Qed.

(** C8: the outcome of a run does not depend on the order in which the
    tasks complete; when no task raises, the dataset is the concatenation of
    the records of the surviving URLs, which are the valid and alive URLs in
    the order of the input list; and the i-th record of a URL pairs the i-th
    heading with the i-th paragraph of its document. *)
Theorem C8_dataset_order w order1 order2 urls filename :
  order1 ≡ₚ seq 0 (length (valid_urls w urls)) →
  order2 ≡ₚ seq 0 (length (valid_urls w urls)) →
  (main w order1 urls filename).1 = (main w order2 urls filename).1
  ∧ (Forall (fun v => (scrape_data w v).1 ≠ Raised) (valid_urls w urls) →
     dataset_of (main w order1 urls filename).1
     = flat_map (records_of w) (valid_urls w urls))
  ∧ valid_urls w urls
    = filter (fun u => is_valid_url u && (is_url_alive_and_valid w u).1) urls
  ∧ (∀ v i r, records_of w v !! i = Some r →
       ∃ html s hs ps,
         (fetch_url w v).1 = Some html ∧ BeautifulSoup w html = Some s
         ∧ select_h1_h2_h3 s = Some hs ∧ find_all_p s = Some ps
         ∧ r = {| url := v;
                  title := default [] (map strip hs !! i);
                  paragraph := default [] (map strip ps !! i) |}).
Proof.
  intros H1 H2. split; [|split; [|split]].
  - rewrite !main_fst. destruct (is_empty (valid_urls w urls)); [done|].
    destruct (raised_or_not w (valid_urls w urls)) as [Hall|Hex].
    + assert (Forall2 (fun t v => t.1 = Returned v)
                (map (scrape_data w) (valid_urls w urls))
                (map (records_of w) (valid_urls w urls))) as Hvs.
      { apply Forall2_fmap. apply Forall_Forall2_diag.
        rewrite Forall_forall in Hall. apply Forall_forall. intros v Hv.
        specialize (Hall v Hv). unfold records_of.
        by destruct (scrape_data w v).1. }
      rewrite <-(length_map (scrape_data w)) in H1, H2.
      by rewrite (gather_returned _ _ _ H1 Hvs), (gather_returned _ _ _ H2 Hvs).
    + assert (Exists (fun t : Trace (outcome (list record)) => t.1 = Raised)
                (map (scrape_data w) (valid_urls w urls))) as Hr.
      { apply Exists_exists in Hex as (v & Hv & Hr). apply Exists_exists.
        exists (scrape_data w v). split; [by apply list_elem_of_fmap_2|done]. }
      rewrite <-(length_map (scrape_data w)) in H1, H2.
      by rewrite (gather_raised _ _ H1 Hr), (gather_raised _ _ H2 Hr).
  - intros Hall. by apply main_dataset.
  - apply check_urls_fst.
  - intros v i r Hr. unfold records_of in Hr. rewrite scrape_data_fst in Hr.
    destruct (fetch_url w v).1 as [[|c html]|]; simpl in Hr; try done.
    destruct (BeautifulSoup w (c :: html)) as [[[hs|] [ps|]]|] eqn:Hs;
      simpl in Hr; try done.
    exists (c :: html), (Soup (Some hs) (Some ps)), hs, ps.
    repeat split; try done.
    rewrite combined_data_lookup in Hr; [by simplify_eq|].
    apply lookup_lt_Some in Hr. by rewrite combined_data_length in Hr.
Qed.

Lemma C8_witness :
  (main site [2; 0; 1]%nat [good_url; soft404_url; missing_url; flaky_url] (cp "out")).1
  = (main site [0; 1; 2]%nat [good_url; soft404_url; missing_url; flaky_url] (cp "out")).1
  ∧ dataset_of
      (main site [2; 0; 1]%nat [good_url; soft404_url; missing_url; flaky_url] (cp "out")).1
    = flat_map (records_of site) [good_url; missing_url; flaky_url].
Proof.
  destruct (C8_dataset_order site [2; 0; 1]%nat [0; 1; 2]%nat
              [good_url; soft404_url; missing_url; flaky_url] (cp "out"))
    as (Hsame & Hdata & _).
  - change (valid_urls site _) with [good_url; missing_url; flaky_url]. simpl.
    apply (Permutation_cons_append [0; 1]%nat 2%nat).
  - reflexivity.
  - split; [exact Hsame|]. apply Hdata.
    change (valid_urls site _) with [good_url; missing_url; flaky_url].
    repeat constructor; by vm_compute.
Defined.

(** ** C9: runs that end without data *)

Lemma main_snd w order urls filename :
  (main w order urls filename).2 =
  Logged INFO CheckingUrls :: (check_urls w urls).2 ++
  (if is_empty (valid_urls w urls) then [Logged WARNING NoValidAliveUrls]
   else
     (gather order (map (scrape_data w) (valid_urls w urls))).2 ++
     match (gather order (map (scrape_data w) (valid_urls w urls))).1 with
     | Raised => []
     | Returned all_results =>
         if is_empty (concat all_results) then [Logged WARNING NoDataScraped]
         else
           let filename :=
             if endswith filename (cp ".csv") then filename
             else filename ++ cp ".csv" in
           [ToCsv filename (concat all_results);
            if to_csv_ok w filename (concat all_results)
            then Logged INFO (DataSaved filename)
            else Logged ERROR FailedToSave]
     end).
Proof.
  remember (gather order (map (scrape_data w) (valid_urls w urls))) as g eqn:Hg.
  unfold main. rewrite bind_snd. simpl. f_equal.
  rewrite bind_snd. fold (valid_urls w urls). f_equal.
  destruct (is_empty (valid_urls w urls)); [by rewrite bind_snd|].
  rewrite <-Hg, bind_snd. f_equal.
  destruct g.1 as [all_results|]; [|done].
  rewrite concat_filter_nonempty.
  destruct (is_empty (concat all_results)); by rewrite ?bind_snd.
Qed.

Lemma check_event_quiet urls e :
  check_event urls e → is_to_csv e = false ∧ is_session_get e = false.
Proof. by destruct e. Qed.

Lemma task_event_quiet v e : task_event v e → is_to_csv e = false.
Proof. by destruct e. Qed.

(** C9: when no URL survives validation and probing, [main] returns at
    line 120 after the warning "No valid, alive URLs found", having made no
    fetch request and written nothing; when the tasks return and the
    flattened data is empty, [main] returns at line 130 after the warning
    "No data scraped", having written nothing.  Both are plain returns: no
    exception leaves [main]. *)
Theorem C9_batch_empty w order urls filename :
  (valid_urls w urls = [] →
   (main w order urls filename).1 = NoValidUrls
   ∧ dataset_of (main w order urls filename).1 = []
   ∧ last (main w order urls filename).2 = Some (Logged WARNING NoValidAliveUrls)
   ∧ Forall (fun e => is_to_csv e = false ∧ is_session_get e = false)
       (main w order urls filename).2)
  ∧ (∀ all_results,
       valid_urls w urls ≠ [] →
       (gather order (map (scrape_data w) (valid_urls w urls))).1
       = Returned all_results →
       concat (filter (fun sublist => negb (is_empty sublist)) all_results) = [] →
       (main w order urls filename).1 = NoData
       ∧ dataset_of (main w order urls filename).1 = []
       ∧ last (main w order urls filename).2 = Some (Logged WARNING NoDataScraped)
       ∧ Forall (fun e => is_to_csv e = false) (main w order urls filename).2).
Proof.
  split.
  - intros Hvalid. rewrite main_fst, main_snd, Hvalid. simpl.
    repeat split; [done..| |].
    + by rewrite app_comm_cons, last_snoc.
    + constructor; [done|]. apply Forall_app. split; [|by repeat constructor].
      apply Forall_forall. intros e He.
      by apply check_urls_events, check_event_quiet in He.
  - intros all_results Hvalid Hg Hflat. rewrite concat_filter_nonempty in Hflat.
    assert (is_empty (valid_urls w urls) = false) as Hne
      by (by destruct (valid_urls w urls)).
    rewrite main_fst, main_snd, Hne, Hg, Hflat. simpl.
    repeat split; [done..| |].
    + by rewrite app_comm_cons, (assoc_L (++)), last_snoc.
    + constructor; [done|]. apply Forall_app. split; [|apply Forall_app; split];
        [| |by repeat constructor]; apply Forall_forall; intros e He.
      * by apply check_urls_events, check_event_quiet in He as [? _].
      * apply gather_events in He as (t & (v' & -> & _)%list_elem_of_fmap & He).
        by apply scrape_data_events, task_event_quiet in He.
Qed.

Lemma C9_witness :
  ((main site [] [cp "not-a-url"; soft404_url] (cp "out")).1 = NoValidUrls
   ∧ last (main site [] [cp "not-a-url"; soft404_url] (cp "out")).2
     = Some (Logged WARNING NoValidAliveUrls))
  ∧ ((main site [0; 1]%nat [blank_url; missing_url] (cp "out")).1 = NoData
     ∧ last (main site [0; 1]%nat [blank_url; missing_url] (cp "out")).2
       = Some (Logged WARNING NoDataScraped)).
Proof.
  split.
  - destruct (C9_batch_empty site [] [cp "not-a-url"; soft404_url] (cp "out"))
      as [Hnone _].
    destruct Hnone as (H1 & _ & H2 & _); [reflexivity|]. by split.
  - destruct (C9_batch_empty site [0; 1]%nat [blank_url; missing_url] (cp "out"))
      as [_ Hflat].
    destruct (Hflat [[]; []]) as (H1 & _ & H2 & _);
      [discriminate | reflexivity | reflexivity |]. by split.
Defined.

(** ** C10: an empty body *)

Lemma fetch_url_no_parse w u html : Parse html ∉ (fetch_url w u).2.
Proof.
  intros Hin.
  destruct (fetch_url_spec w u) as (n & Hn & _ & Htrace & _).
  assert (Parse html ∈ backoff_trace u n) as Hb.
  { rewrite <-Htrace. by apply list_elem_of_filter. }
  destruct n as [|[|[|[|n]]]]; try lia;
    apply list_elem_of_In in Hb; simpl in Hb; intuition discriminate.
Qed.

(** C10: when the fetch returns None or the empty string, the task returns
    the empty record sequence with nothing but the events of the fetch: the
    parser is not called, and no record of the dataset of any run carries
    that URL. *)
Theorem C10_empty_body w u :
  (fetch_url w u).1 = None ∨ (fetch_url w u).1 = Some [] →
  scrape_data w u = (Returned [], (fetch_url w u).2)
  ∧ (∀ html, Parse html ∉ (scrape_data w u).2)
  ∧ records_of w u = []
  ∧ ∀ order urls filename r,
      r ∈ dataset_of (main w order urls filename).1 → url r ≠ u.
Proof.
  intros Hfetch.
  assert (scrape_data w u = (Returned [], (fetch_url w u).2)) as Hscrape.
  { unfold scrape_data, bind.
    destruct Hfetch as [-> | ->]; simpl; by rewrite app_nil_r. }
  split; [done|]. split; [|split].
  - intros html. rewrite Hscrape. apply fetch_url_no_parse.
  - unfold records_of. by rewrite Hscrape.
  - intros order urls filename r (v & _ & Hr)%dataset_member Hu.
    apply records_of_inv in Hr as (Hv & html & Hsome & Hne).
    assert (v = u) as -> by congruence.
    destruct Hfetch; congruence.
Qed.

Lemma C10_witness :
  scrape_data site blank_url = (Returned [], (fetch_url site blank_url).2)
  ∧ records_of site blank_url = [].
Proof.
  destruct (C10_empty_body site blank_url) as (H1 & _ & H2 & _).
  - right. reflexivity.
  - by split.
Defined.

(** * Further properties of the code *)

(** ** URL syntax (lines 21-26) *)

Lemma ci_word_no_space scheme pat :
  ci_word scheme pat →
  Forall (fun p => 32 ∉ Re.ignorecase_variants p) pat →
  32 ∉ scheme.
Proof.
  induction 1 as [|c p scheme pat Hc _ IH]; intros Hpat.
  - by intros ?%elem_of_nil.
  - inversion_clear Hpat as [|?? Hp Hpat'].
    intros [Heq|Hin]%elem_of_cons; [by subst c|]. by apply IH.
Qed.

Lemma scheme_words_no_space :
  Forall (fun p => 32 ∉ Re.ignorecase_variants p) (cp "http://")
  ∧ Forall (fun p => 32 ∉ Re.ignorecase_variants p) (cp "https://").
Proof. split; apply (bool_decide_unpack _); by vm_compute. Qed.

Lemma ci_word_head scheme p pat rest :
  ci_word scheme (p :: pat) →
  ∃ c, head (scheme ++ rest) = Some c ∧ c ∈ Re.ignorecase_variants p.
Proof. inversion 1; subst. by eexists. Qed.

(** X1: a URL that [is_valid_url] accepts contains no space at all, starts
    with a letter h in either case, and has at least eight characters. *)
Theorem valid_url_no_space s :
  is_valid_url s = true →
  (32 ∉ s) ∧ (8 ≤ length s)%nat ∧ (head s = Some 104 ∨ head s = Some 72).
Proof.
  intros (scheme & rest & -> & Hscheme & Hne & Hrest)%is_valid_url_iff.
  destruct scheme_words_no_space as [Hhttp Hhttps].
  assert ((32 ∉ scheme) ∧ (7 ≤ length scheme)%nat
          ∧ ∃ c, head (scheme ++ rest) = Some c ∧ c ∈ [104; 72])
    as (Hs & Hlen & c & Hhead & Hc).
  { destruct Hscheme as [Hw|Hw];
      (split; [by eapply ci_word_no_space|]);
      (split; [apply Forall2_length in Hw; rewrite Hw; vm_compute; lia|]).
    - change (cp "http://") with (104 :: cp "ttp://") in Hw.
      exact (ci_word_head _ _ _ rest Hw).
    - change (cp "https://") with (104 :: cp "ttps://") in Hw.
      exact (ci_word_head _ _ _ rest Hw). }
  split; [|split].
  - rewrite elem_of_app. tauto.
  - rewrite length_app. destruct rest; [done|]. simpl. lia.
  - rewrite Hhead. apply list_elem_of_In in Hc. simpl in Hc.
    destruct Hc as [<-|[<-|[]]]; auto.
Qed.

Lemma valid_url_no_space_witness :
  (32 ∉ good_url) ∧ (8 ≤ length good_url)%nat
  ∧ (head good_url = Some 104 ∨ head good_url = Some 72).
Proof. apply valid_url_no_space. reflexivity. Defined.

(** X2: validity is kept when characters other than the space are appended,
    whatever they are: tabs, newlines and non-ASCII code points included. *)
Theorem valid_url_extend s t :
  is_valid_url s = true → 32 ∉ t → is_valid_url (s ++ t) = true.
Proof.
  intros (scheme & rest & -> & Hscheme & Hne & Hrest)%is_valid_url_iff Ht.
  apply is_valid_url_iff. exists scheme, (rest ++ t).
  split; [by rewrite (assoc_L (++))|]. split; [done|]. split.
  - by destruct rest.
  - rewrite elem_of_app. tauto.
Qed.

Lemma valid_url_extend_witness : is_valid_url (good_url ++ [9; 10; 233]) = true.
Proof.
  apply valid_url_extend; [reflexivity|].
  intros H. apply list_elem_of_In in H. simpl in H.
  destruct H as [H|[H|[H|[]]]]; discriminate H.
Defined.

(** ** The probe (lines 29-45) and the validation loop (lines 109-116) *)

(** X3: a probe calls [client.get] exactly once (line 34; the redirects that
    the client follows are inside that call) and never repeats the call.  Of
    the program's own logging calls at info level or above it makes none when
    it returns True and exactly one, a warning or an error, when it returns
    False: the warning of line 42 with the status for any status other than
    200 (other 2xx statuses included), the error of line 44 when the request
    raises.  The debug line of line 33 and the records of the HTTP library
    are not events of the trace. *)
Theorem probe_one_request w u :
  filter (fun e => is_probe_get e = true) (is_url_alive_and_valid w u).2
  = [ProbeGet u]
  ∧ ((is_url_alive_and_valid w u).1 = true →
     (is_url_alive_and_valid w u).2 = [ProbeGet u])
  ∧ ((is_url_alive_and_valid w u).1 = false →
     ∃ l m, (is_url_alive_and_valid w u).2 = [ProbeGet u; Logged l m] ∧ l ≠ INFO)
  ∧ (∀ status_code text,
       httpx_get w u = ProbeResponse status_code text → status_code ≠ 200%Z →
       is_url_alive_and_valid w u
       = (false, [ProbeGet u; Logged WARNING (Non200Status u status_code)]))
  ∧ (httpx_get w u = ProbeRaises →
     is_url_alive_and_valid w u
     = (false, [ProbeGet u; Logged ERROR (ErrorChecking u)])).
Proof.
  unfold is_url_alive_and_valid.
  destruct (httpx_get w u) as [status_code text|];
    [destruct (Z.eqb_spec status_code 200) as [->|Hne];
     [simpl; destruct (contains (cp "page not found") (lower w text))|]|];
    (split; [reflexivity|]); (split; [done|]);
    (split; [first [done | intros _; do 2 eexists; split; [reflexivity|done]]|]);
    (split; [|done]); intros sc text' [= <- <-] Hsc; done.
Qed.

Lemma probe_one_request_witness :
  is_url_alive_and_valid site (cp "http://elsewhere.test/")
  = (false, [ProbeGet (cp "http://elsewhere.test/");
             Logged WARNING (Non200Status (cp "http://elsewhere.test/") 404)])
  ∧ (is_url_alive_and_valid site good_url).2 = [ProbeGet good_url]
  ∧ ∃ l m, (is_url_alive_and_valid site soft404_url).2
           = [ProbeGet soft404_url; Logged l m] ∧ l ≠ INFO.
Proof.
  split; [|split].
  - apply (probe_one_request site (cp "http://elsewhere.test/")) with (text := []);
      [reflexivity | lia].
  - apply (probe_one_request site good_url). reflexivity.
  - apply (probe_one_request site soft404_url). reflexivity.
Defined.

Lemma probe_trace_filters w u :
  filter (fun e => is_probe_get e = true) (is_url_alive_and_valid w u).2
  = [ProbeGet u]
  ∧ filter (fun e => is_invalid_skipped e = true) (is_url_alive_and_valid w u).2
    = [].
Proof.
  unfold is_url_alive_and_valid.
  destruct (httpx_get w u) as [status_code text|]; [|done].
  destruct (status_code =? 200)%Z; [|done]. simpl.
  by destruct (contains (cp "page not found") (lower w text)).
Qed.

(** X4: the validation loop probes the syntactically valid URLs of the
    input, once per occurrence and in input order, and never the others; each
    invalid URL gets one "Invalid URL skipped" warning, in input order. *)
Theorem check_urls_probes w urls :
  filter (fun e => is_probe_get e = true) (check_urls w urls).2
  = map ProbeGet (filter (fun u => is_valid_url u = true) urls)
  ∧ filter (fun e => is_invalid_skipped e = true) (check_urls w urls).2
    = map (fun u => Logged WARNING (InvalidUrlSkipped u))
          (filter (fun u => is_valid_url u = false) urls).
Proof.
  induction urls as [|u urls [IHp IHs]]; [done|].
  simpl. trace_simpl. rewrite ?app_nil_r, !filter_app, IHp, IHs.
  rewrite !(filter_cons _ u).
  destruct (is_valid_url u) eqn:Hu; simpl.
  - destruct (probe_trace_filters w u) as [-> ->]. by repeat case_decide.
  - by repeat case_decide.
Qed.

Lemma check_urls_invalid w urls :
  Forall (fun u => is_valid_url u = false) urls →
  check_urls w urls
  = ([], map (fun u => Logged WARNING (InvalidUrlSkipped u)) urls).
Proof.
  induction 1 as [|u urls Hu _ IH]; [reflexivity|].
  simpl. rewrite Hu. unfold bind. simpl. rewrite IH. simpl.
  by rewrite app_nil_r.
Qed.

(** X5: when no URL of the input is syntactically valid, the whole run is
    the opening log line, one warning per URL in input order, and the final
    warning: there is no network request of any kind and nothing is written. *)
Theorem main_all_invalid w order urls filename :
  Forall (fun u => is_valid_url u = false) urls →
  main w order urls filename
  = (NoValidUrls,
     Logged INFO CheckingUrls
     :: map (fun u => Logged WARNING (InvalidUrlSkipped u)) urls
     ++ [Logged WARNING NoValidAliveUrls]).
Proof.
  intros Hall. unfold main. unfold bind at 1. unfold bind at 1.
  by rewrite (check_urls_invalid w urls Hall).
Qed.

Lemma main_all_invalid_witness :
  main site [] [cp "not-a-url"; cp "ftp://x"; cp "http://a b"] (cp "out")
  = (NoValidUrls,
     [Logged INFO CheckingUrls;
      Logged WARNING (InvalidUrlSkipped (cp "not-a-url"));
      Logged WARNING (InvalidUrlSkipped (cp "ftp://x"));
      Logged WARNING (InvalidUrlSkipped (cp "http://a b"));
      Logged WARNING NoValidAliveUrls]).
Proof.
  apply (main_all_invalid site [] [cp "not-a-url"; cp "ftp://x"; cp "http://a b"]).
  repeat constructor.
Defined.

(** ** The soft-404 test on ASCII bodies (lines 35-40) *)

Lemma lower_from_all_ascii w before text :
  Forall (fun c => c < 128) text →
  lower_from w before text = map ascii_lower text.
Proof.
  intros Hascii. revert before.
  induction Hascii as [|c text Hc _ IH]; intros before; simpl; [done|].
  apply N.ltb_lt in Hc. by rewrite Hc, IH.
Qed.

(** X6: on a body of ASCII characters answered with status 200, the probe
    returns True exactly when "page not found" does not occur in the body in
    any letter case, whatever the Unicode tables. *)
Theorem probe_ascii_body w u text :
  httpx_get w u = ProbeResponse 200 text →
  Forall (fun c => c < 128) text →
  ((is_url_alive_and_valid w u).1 = true
   ↔ ¬ occurs_any_case (cp "page not found") text).
Proof.
  intros Hget Hascii. rewrite probe_fst, Hget. simpl.
  rewrite negb_true_iff. split.
  - intros Hc Hocc. apply (occurs_lower_contains w) in Hocc; [congruence|].
    apply (bool_decide_unpack _). by vm_compute.
  - intros Hocc. apply not_true_is_false. intros Hc. apply Hocc.
    unfold lower in Hc. rewrite lower_from_all_ascii in Hc by done.
    apply contains_inv in Hc as (pre & post & Heq).
    apply fmap_app_inv in Heq as (t1 & t23 & -> & Heq & ->).
    symmetry in Heq. apply fmap_app_inv in Heq as (t2 & t3 & Hmid & -> & ->).
    exists t1, t2, t3. split; [done|]. rewrite Hmid.
    apply Forall2_fmap_r, Forall_Forall2_diag, Forall_true. done.
Qed.

Lemma probe_ascii_body_witness :
  (is_url_alive_and_valid site good_url).1 = true
  ↔ ¬ occurs_any_case (cp "page not found") good_html.
Proof.
  apply probe_ascii_body; [reflexivity|].
  apply (bool_decide_unpack _). by vm_compute.
Defined.

(** ** The fetch (lines 48-74) *)

Lemma backoff_trace_no_log u n :
  (n ≤ 3)%nat → filter (fun e => is_logged e = true) (backoff_trace u n) = [].
Proof. intros Hn. destruct n as [|[|[|[|n]]]]; try lia; reflexivity. Qed.

(** X7: of the program's own logging calls at info level or above, a fetch
    that returns a body makes none, and a fetch that returns None makes
    exactly one, at error level (line 69, 71 or 73), after all of its
    requests and waits.  The debug lines 59-60 and 64-65 and the records of
    the retry library are not events of the trace. *)
Theorem fetch_url_logs w u :
  (∀ html, (fetch_url w u).1 = Some html →
     filter (fun e => is_logged e = true) (fetch_url w u).2 = [])
  ∧ ((fetch_url w u).1 = None →
     ∃ m, filter (fun e => is_logged e = true) (fetch_url w u).2
          = [Logged ERROR m]
          ∧ last (fetch_url w u).2 = Some (Logged ERROR m)).
Proof.
  destruct (retry_get_spec w u) as (n & Hn & Heq & _).
  pose proof (backoff_trace_no_log u n ltac:(lia)) as Hquiet.
  unfold fetch_url. rewrite bind_fst, bind_snd, Heq. simpl.
  rewrite filter_app, Hquiet. simpl.
  destruct (session_request w u n) as [status [html|x]|x]; simpl;
    [destruct (400 <=? status)%Z..|]; unfold fetch_failed; simpl.
  all: split; [first [by intros ? [=] | done]|].
  all: first [by intros [=]
             | intros _; eexists; split; [reflexivity | by rewrite last_snoc]].
Qed.

Lemma fetch_url_logs_witness :
  filter (fun e => is_logged e = true) (fetch_url site flaky_url).2 = []
  ∧ ∃ m, filter (fun e => is_logged e = true) (fetch_url site down_url).2
         = [Logged ERROR m]
         ∧ last (fetch_url site down_url).2 = Some (Logged ERROR m).
Proof.
  split.
  - apply (fetch_url_logs site flaky_url) with (html := long_html). reflexivity.
  - apply (fetch_url_logs site down_url). reflexivity.
Defined.

(** X8: when the first answers are server errors (status 500 or above) and
    answer k, for k up to 3, is a response with a status below 400 and a
    readable body, the fetch returns that body; its requests and waits are
    exactly k requests with the waits of the backoff between them; and it
    makes none of the program's logging calls at info level or above, so no
    error line.  Debug lines and the records of the retry library are not
    events of the trace. *)
Theorem fetch_url_recovers w u k status html :
  (1 ≤ k ≤ 3)%nat →
  (∀ j, (1 ≤ j < k)%nat →
     ∃ st b, session_request w u j = Response st b ∧ (500 ≤ st)%Z) →
  session_request w u k = Response status (Text html) →
  (status < 400)%Z →
  (fetch_url w u).1 = Some html
  ∧ filter (fun e => is_logged e = false) (fetch_url w u).2 = backoff_trace u k
  ∧ filter (fun e => is_logged e = true) (fetch_url w u).2 = [].
Proof.
  intros Hk Hbad Hgood Hstatus.
  destruct (retry_get_spec w u) as (n & Hn & Heq & Hbefore & Hlast).
  assert (n = k) as ->.
  { destruct (Nat.lt_trichotomy n k) as [Hlt|[->|Hgt]]; [|done|].
    - destruct (Hbad n ltac:(lia)) as (st & b & Hreply & Hst).
      specialize (Hlast ltac:(lia)). rewrite Hreply in Hlast.
      unfold Retry.retried in Hlast.
      rewrite <-(status_retried_500 w) in Hst. congruence.
    - specialize (Hbefore k ltac:(lia)). rewrite Hgood in Hbefore.
      unfold Retry.retried in Hbefore.
      apply status_retried_500 in Hbefore. lia. }
  assert (fetch_url w u = (Some html, backoff_trace u k)) as ->.
  { unfold fetch_url, bind. rewrite Heq, Hgood. simpl.
    rewrite (proj2 (Z.leb_gt 400 status)) by lia. simpl. by rewrite app_nil_r. }
  simpl. split; [done|]. split; [|by apply backoff_trace_no_log; lia].
  destruct k as [|[|[|[|k]]]]; try lia; reflexivity.
Qed.

Lemma fetch_url_recovers_witness :
  (fetch_url site flaky_url).1 = Some long_html
  ∧ filter (fun e => is_logged e = false) (fetch_url site flaky_url).2
    = [SessionGet flaky_url 1; Sleep 200; SessionGet flaky_url 2; Sleep 400;
       SessionGet flaky_url 3]
  ∧ filter (fun e => is_logged e = true) (fetch_url site flaky_url).2 = [].
Proof.
  apply (fetch_url_recovers site flaky_url 3 200%Z long_html);
    [lia | | reflexivity | lia].
  intros j Hj. exists 503%Z, (Text []).
  destruct j as [|[|[|j]]]; try lia; split; (reflexivity || lia).
Defined.

(** ** Pairing and stripping (lines 84-98) *)

(** X9: the columns of the records of a page: the titles are the headings
    in order, followed by empty strings up to the number of records; the
    paragraphs likewise; every record carries the URL.  No text is lost,
    duplicated or reordered. *)
Theorem combined_data_columns u titles paragraphs :
  let n := Nat.max (length titles) (length paragraphs) in
  map title (combined_data u titles paragraphs)
  = titles ++ replicate (n - length titles) []
  ∧ map paragraph (combined_data u titles paragraphs)
    = paragraphs ++ replicate (n - length paragraphs) []
  ∧ map url (combined_data u titles paragraphs) = replicate n u.
Proof.
  intros n.
  assert (∀ (f : record → str) (l : list str),
            (∀ i, f {| url := u; title := default [] (titles !! i);
                       paragraph := default [] (paragraphs !! i) |}
                  = default [] (l !! i)) →
            (length l ≤ n)%nat →
            map f (combined_data u titles paragraphs)
            = l ++ replicate (n - length l) []) as Hcol.
  { intros f l Hf Hl. apply list_eq. intros i.
    rewrite list_lookup_fmap.
    destruct (Nat.lt_ge_cases i n) as [Hi|Hi].
    - rewrite combined_data_lookup by done. simpl. rewrite Hf.
      destruct (Nat.lt_ge_cases i (length l)) as [Hil|Hil].
      + rewrite lookup_app_l by done.
        by destruct (lookup_lt_is_Some_2 l i Hil) as [x ->].
      + rewrite lookup_app_r, lookup_replicate_2 by lia.
        by rewrite (lookup_ge_None_2 l i Hil).
    - rewrite (lookup_ge_None_2 (combined_data _ _ _))
        by (rewrite combined_data_length; done).
      symmetry. apply lookup_ge_None_2.
      rewrite length_app, length_replicate. lia. }
  split; [|split].
  - apply Hcol; [done | unfold n; lia].
  - apply Hcol; [done | unfold n; lia].
  - apply list_eq. intros i. rewrite list_lookup_fmap.
    destruct (Nat.lt_ge_cases i n) as [Hi|Hi].
    + rewrite combined_data_lookup by done. simpl.
      by rewrite lookup_replicate_2.
    + rewrite (lookup_ge_None_2 (combined_data _ _ _))
        by (rewrite combined_data_length; done).
      symmetry. apply lookup_ge_None_2. by rewrite length_replicate.
Qed.

Lemma lstrip_suffix s :
  ∃ pre, s = pre ++ lstrip s ∧ Forall (fun c => isspace c = true) pre.
Proof.
  induction s as [|c s (pre & Hs & Hpre)]; [by exists []|].
  simpl. destruct (isspace c) eqn:Hc.
  - exists (c :: pre). split; [by rewrite Hs at 1 | by constructor].
  - by exists [].
Qed.

Lemma lstrip_head s c : head (lstrip s) = Some c → isspace c = false.
Proof.
  induction s as [|d s IH]; [done|]. simpl.
  destruct (isspace d) eqn:Hd; [done|]. simpl. by intros [= <-].
Qed.

Lemma head_rev (s : str) : head (rev s) = last s.
Proof.
  induction s as [|c s IH] using rev_ind; [done|].
  by rewrite rev_app_distr, last_snoc.
Qed.

Lemma rstrip_prefix s :
  ∃ post, s = rstrip s ++ post ∧ Forall (fun c => isspace c = true) post.
Proof.
  destruct (lstrip_suffix (rev s)) as (pre & Hs & Hpre).
  exists (rev pre). split.
  - unfold rstrip. rewrite <-rev_app_distr, <-Hs. by rewrite rev_involutive.
  - apply Forall_forall. intros c Hc. rewrite Forall_forall in Hpre.
    apply Hpre. by apply list_elem_of_In, in_rev, list_elem_of_In.
Qed.

Lemma strip_trimmed s : trimmed (strip s).
Proof.
  unfold strip. split; intros c Hc.
  - destruct (rstrip_prefix (lstrip s)) as (post & Hs & _).
    apply (lstrip_head s). rewrite Hs.
    by destruct (rstrip (lstrip s)).
  - unfold rstrip in Hc. rewrite <-head_rev, rev_involutive in Hc.
    by apply lstrip_head in Hc.
Qed.

(** X10: no title and no paragraph of a record that a task returns starts
    or ends with a whitespace character, and every record carries the URL of
    its task. *)
Theorem records_trimmed w u r :
  r ∈ records_of w u →
  url r = u ∧ trimmed (title r) ∧ trimmed (paragraph r).
Proof.
  unfold records_of. rewrite scrape_data_fst.
  destruct (fetch_url w u).1 as [[|c html]|]; simpl;
    try by intros ?%elem_of_nil.
  destruct (BeautifulSoup w (c :: html)) as [[[hs|] [ps|]]|]; simpl;
    try by intros ?%elem_of_nil.
  intros (i & Hi)%list_elem_of_lookup.
  pose proof (lookup_lt_Some _ _ _ Hi) as Hlt.
  rewrite combined_data_length in Hlt.
  rewrite combined_data_lookup in Hi by done. injection Hi as <-. simpl.
  assert (∀ l : list str, trimmed (default [] (map strip l !! i))) as Htrim.
  { intros l. rewrite list_lookup_fmap.
    destruct (l !! i); simpl; [apply strip_trimmed | by split]. }
  split; [done|]. split; apply Htrim.
Qed.

Lemma records_trimmed_witness :
  url (Row good_url (cp "Intro") (cp "A")) = good_url
  ∧ trimmed (title (Row good_url (cp "Intro") (cp "A")))
  ∧ trimmed (paragraph (Row good_url (cp "Intro") (cp "A"))).
Proof.
  apply (records_trimmed site good_url). vm_compute. left.
Defined.

(** ** The end of a run (lines 127-141) *)

Lemma endswith_app s suffix : endswith (s ++ suffix) suffix = true.
Proof. unfold endswith. rewrite rev_app_distr. apply startswith_app. Qed.

Lemma gather_quiet {A} order (tasks : list (Trace (outcome A))) e :
  (∀ t e', t ∈ tasks → e' ∈ t.2 → is_to_csv e' = false) →
  e ∈ (gather order tasks).2 → is_to_csv e = false.
Proof. intros H (t & Ht & He)%gather_events. eauto. Qed.

(** X11: a file is written exactly when the run ends with a dataset; the
    rows written are that dataset and are never empty; the name of the file
    always ends in ".csv": it is the given name when that already ends in
    ".csv" and the given name with ".csv" appended otherwise.  A failure of
    the write does not change how the run ends. *)
Theorem csv_written w order urls filename f rows :
  ToCsv f rows ∈ (main w order urls filename).2 ↔
  (main w order urls filename).1 = Dataset rows
  ∧ rows ≠ []
  ∧ endswith f (cp ".csv") = true
  ∧ f = (if endswith filename (cp ".csv") then filename
         else filename ++ cp ".csv").
Proof.
  rewrite main_fst, main_snd.
  assert (ToCsv f rows ∉ (check_urls w urls).2) as Hcheck.
  { by intros ?%check_urls_events. }
  assert (ToCsv f rows ∉ (gather order (map (scrape_data w) (valid_urls w urls))).2)
    as Hgather.
  { intros (t & (v & -> & _)%list_elem_of_fmap & He)%gather_events.
    by apply scrape_data_events in He. }
  assert (endswith (if endswith filename (cp ".csv") then filename
                    else filename ++ cp ".csv") (cp ".csv") = true) as Hname.
  { destruct (endswith filename (cp ".csv")) eqn:He; [done|].
    apply endswith_app. }
  rewrite elem_of_cons, elem_of_app.
  destruct (is_empty (valid_urls w urls)).
  { rewrite list_elem_of_singleton. split; [intuition discriminate|].
    by intros [? _]. }
  rewrite elem_of_app.
  destruct (gather order (map (scrape_data w) (valid_urls w urls))).1
    as [all_results|].
  - destruct (concat all_results) as [|r0 flat] eqn:Hflat; simpl.
    + rewrite list_elem_of_singleton. split; [intuition discriminate|].
      by intros [? _].
    + rewrite !elem_of_cons, elem_of_nil. split.
      * intros [?|[?|[?|[[= -> ->]|[Hlog|[]]]]]]; try done.
        destruct (to_csv_ok w _ _); discriminate Hlog.
      * intros ([= <-] & _ & _ & ->). auto.
  - rewrite elem_of_nil. split; [intuition discriminate|]. by intros [? _].
Qed.

Lemma csv_written_witness :
  ToCsv (cp "out.csv") (records_of site good_url)
  ∈ (main site [0%nat] [good_url] (cp "out")).2.
Proof.
  apply (csv_written site [0%nat] [good_url] (cp "out")).
  repeat split; discriminate.
Defined.

(** ** Requests of a run (lines 122-125) *)

Lemma requests_app es es' : requests (es ++ es') = (requests es + requests es')%nat.
Proof. unfold requests. by rewrite filter_app, length_app. Qed.

Lemma requests_none es :
  (∀ e, e ∈ es → is_session_get e = false) → requests es = 0%nat.
Proof.
  intros H. unfold requests. induction es as [|e es IH]; [done|].
  rewrite filter_cons. case_decide as He.
  - rewrite H in He; [done | by left].
  - apply IH. intros e' He'. apply H. by right.
Qed.

Lemma scrape_data_requests w u : (requests (scrape_data w u).2 ≤ 3)%nat.
Proof.
  destruct (fetch_url_spec w u) as (n & Hn & _ & _ & Hreq & _).
  unfold scrape_data. rewrite bind_snd, requests_app, Hreq.
  rewrite requests_none; [lia|].
  intros e. destruct (fetch_url w u).1 as [html|]; [|by intros ?%elem_of_nil].
  destruct (truthy html); simpl; [|by intros ?%elem_of_nil].
  rewrite bind_snd. simpl. rewrite elem_of_cons. intros [->|He]; [done|].
  revert He.
  destruct (BeautifulSoup w html) as [[[hs|] [ps|]]|]; simpl;
    try destruct (is_empty (map strip hs) && is_empty (map strip ps));
    rewrite ?bind_snd; simpl;
    rewrite ?elem_of_cons, ?elem_of_nil; intuition (subst; simpl; auto).
Qed.

Lemma await_each_requests {A} (res : list (nat * Trace (outcome A))) :
  Forall (fun it => (requests it.2.2 ≤ 3)%nat) res →
  (requests (await_each res).2 ≤ 3 * length res)%nat.
Proof.
  induction 1 as [|[i t] res Ht _ IH]; simpl in *; [done|].
  rewrite bind_snd, requests_app.
  destruct t.1; [|simpl; unfold requests at 2; simpl; lia].
  rewrite bind_snd, requests_app. simpl.
  unfold requests at 3. simpl. lia.
Qed.

Lemma filter_none (p : event → bool) es :
  (∀ e, e ∈ es → p e = false) → filter (fun e => p e = true) es = [].
Proof.
  intros H. induction es as [|e es IH]; [done|].
  rewrite filter_cons. case_decide as He.
  - rewrite H in He; [done | by left].
  - apply IH. intros e' He'. apply H. by right.
Qed.

Lemma check_urls_probe_count w urls :
  (length (filter (fun e => is_probe_get e = true) (check_urls w urls).2)
   ≤ length urls)%nat.
Proof.
  induction urls as [|u urls IH]; [done|].
  simpl. trace_simpl. rewrite ?app_nil_r, filter_app, length_app.
  destruct (is_valid_url u).
  - destruct (probe_trace_filters w u) as [-> _]. simpl. lia.
  - simpl. lia.
Qed.

Lemma omap_length_le {A B} (f : A → option B) l :
  (length (omap f l) ≤ length l)%nat.
Proof.
  induction l as [|x l IH]; [done|]. csimpl. destruct (f x); simpl; lia.
Qed.

(** X12: a run sends at most one probe per URL of the input and at most
    three fetch requests per URL that survives validation and probing. *)
Theorem main_request_budget w order urls filename :
  order ≡ₚ seq 0 (length (valid_urls w urls)) →
  (length (filter (fun e => is_probe_get e = true) (main w order urls filename).2)
   ≤ length urls)%nat
  ∧ (requests (main w order urls filename).2
     ≤ 3 * length (valid_urls w urls))%nat
  ∧ (length (valid_urls w urls) ≤ length urls)%nat.
Proof.
  intros Hperm. rewrite main_snd.
  set (g := gather order (map (scrape_data w) (valid_urls w urls))).
  set (final := match g.1 with
                | Returned all_results => _
                | Raised => _
                end).
  assert (∀ e, e ∈ final → is_session_get e = false ∧ is_probe_get e = false)
    as Hfinal.
  { intros e. unfold final. destruct g.1 as [all_results|];
      [|by intros ?%elem_of_nil].
    destruct (is_empty (concat all_results)); simpl.
    - rewrite list_elem_of_singleton. by intros ->.
    - rewrite !elem_of_cons, elem_of_nil. intros [->|[->|[]]]; [done|].
      by destruct (to_csv_ok w _ _). }
  assert (∀ e, e ∈ g.2 → is_probe_get e = false) as Hg.
  { intros e (t & (v & -> & _)%list_elem_of_fmap & He)%gather_events.
    apply scrape_data_events in He. by destruct e. }
  assert (requests g.2 ≤ 3 * length (valid_urls w urls))%nat as Hreq.
  { unfold g, gather. rewrite bind_snd, requests_app.
    set (ifs := omap _ order).
    assert (length ifs ≤ length (valid_urls w urls))%nat as Hifs.
    { unfold ifs. etransitivity; [apply omap_length_le|].
      by rewrite Hperm, length_seq. }
    assert (requests (await_each ifs).2 ≤ 3 * length ifs)%nat as Hawait.
    { apply await_each_requests, Forall_forall.
      intros [i t] (j & _ & Hj)%list_elem_of_omap.
      destruct (map (scrape_data w) (valid_urls w urls) !! j) as [t'|] eqn:Ht;
        simplify_eq/=.
      apply list_elem_of_lookup_2, list_elem_of_fmap in Ht as (v & -> & _).
      apply scrape_data_requests. }
    rewrite (requests_none (ret _).2) by (by intros e ?%elem_of_nil). lia. }
  assert (length (valid_urls w urls) ≤ length urls)%nat as Hlen.
  { unfold valid_urls. rewrite check_urls_fst. apply length_filter. }
  split; [|split; [|done]].
  - rewrite filter_cons. simpl. rewrite filter_app, length_app.
    match goal with
    | |- context [filter _ (if ?c then ?a else ?b)] =>
        rewrite (filter_none is_probe_get (if c then a else b))
    end.
    + pose proof (check_urls_probe_count w urls). simpl. lia.
    + intros e. destruct (is_empty (valid_urls w urls)).
      * rewrite list_elem_of_singleton. by intros ->.
      * rewrite elem_of_app. intros [?|?]; [by apply Hg | by apply Hfinal].
  - change (Logged INFO CheckingUrls :: ?l) with ([Logged INFO CheckingUrls] ++ l).
    rewrite !requests_app.
    rewrite (requests_none [Logged INFO CheckingUrls])
      by (intros e He; apply list_elem_of_singleton in He; by subst).
    rewrite (requests_none (check_urls w urls).2)
      by (intros e He; apply (check_urls_events w), check_event_quiet in He;
          tauto).
    destruct (is_empty (valid_urls w urls)).
    + rewrite requests_none
        by (intros e He; apply list_elem_of_singleton in He; by subst).
      lia.
    + rewrite requests_app, (requests_none final)
        by (intros e He; by apply Hfinal). lia.
Qed.

Lemma main_request_budget_witness :
  (requests (main site [1; 0]%nat [flaky_url; cp "nope"; down_url] (cp "out")).2
   ≤ 3 * length (valid_urls site [flaky_url; cp "nope"; down_url]))%nat.
Proof.
  apply (main_request_budget site [1; 0]%nat [flaky_url; cp "nope"; down_url]).
  change (valid_urls site _) with [flaky_url; down_url]. apply perm_swap.
Defined.

(** ** Which URLs are fetched, and when a run raises (lines 122-125) *)

Lemma await_each_all_events {A} (res : list (nat * Trace (outcome A))) it e :
  Forall (fun it => it.2.1 ≠ Raised) res →
  it ∈ res → e ∈ it.2.2 → e ∈ (await_each res).2.
Proof.
  induction 1 as [|[i t] res Ht _ IH]; [by intros ?%elem_of_nil|].
  simpl in *. rewrite bind_snd, elem_of_app.
  destruct t.1 as [a|]; [|done]. rewrite bind_snd. simpl. rewrite app_nil_r.
  intros [->|Hin]%elem_of_cons He; [by left|]. right. by apply IH.
Qed.

Lemma scrape_data_first_request w u : SessionGet u 1 ∈ (scrape_data w u).2.
Proof.
  destruct (fetch_url_spec w u) as (n & Hn & _ & Htrace & _).
  unfold scrape_data. rewrite bind_snd, elem_of_app. left.
  assert (SessionGet u 1 ∈ backoff_trace u n) as Hin.
  { destruct n as [|n]; [lia|]. unfold backoff_trace. simpl. by left. }
  rewrite <-Htrace in Hin. by apply list_elem_of_filter in Hin as [_ ?].
Qed.

Lemma gather_tasks_returned w order (valid : list str) :
  order ≡ₚ seq 0 (length valid) →
  Forall (fun v => (scrape_data w v).1 ≠ Raised) valid →
  (gather order (map (scrape_data w) valid)).1
  = Returned (map (records_of w) valid).
Proof.
  intros Hperm Hall. apply gather_returned; [by rewrite length_map|].
  apply Forall2_fmap. apply Forall_Forall2_diag.
  rewrite Forall_forall in Hall. apply Forall_forall. intros v Hv.
  specialize (Hall v Hv). unfold records_of. by destruct (scrape_data w v).1.
Qed.

(** X13: in a run in which no task raises, the URLs for which a fetch
    request is sent are exactly the URLs that survive validation and
    probing: every one of them is requested, and no other URL is. *)
Theorem fetched_iff_surviving w order urls filename v :
  order ≡ₚ seq 0 (length (valid_urls w urls)) →
  Forall (fun v => (scrape_data w v).1 ≠ Raised) (valid_urls w urls) →
  ((∃ k, SessionGet v k ∈ (main w order urls filename).2)
   ↔ v ∈ valid_urls w urls).
Proof.
  intros Hperm Hall. split.
  - intros [k [H|[[]|[(v' & Hv & <-)|H]]]%main_events]; done.
  - intros Hv. exists 1%nat. rewrite main_snd.
    assert (is_empty (valid_urls w urls) = false) as ->
      by (destruct (valid_urls w urls); [by apply elem_of_nil in Hv | done]).
    right. rewrite !elem_of_app. right. left.
    unfold gather. rewrite bind_snd, elem_of_app. left.
    apply list_elem_of_lookup in Hv as [i Hi].
    apply (await_each_all_events _ (i, scrape_data w v)).
    + apply Forall_forall. intros [j t] (j' & _ & Hj)%list_elem_of_omap.
      destruct (map (scrape_data w) (valid_urls w urls) !! j') as [t'|] eqn:Ht;
        simplify_eq/=.
      apply list_elem_of_lookup_2, list_elem_of_fmap in Ht as (v' & -> & Hv').
      rewrite Forall_forall in Hall. by apply Hall.
    + apply list_elem_of_omap. exists i. split.
      * rewrite Hperm. apply elem_of_seq. apply lookup_lt_Some in Hi. lia.
      * by rewrite list_lookup_fmap, Hi.
    + apply scrape_data_first_request.
Qed.

Lemma fetched_iff_surviving_witness :
  (∃ k, SessionGet missing_url k
        ∈ (main site [1; 0]%nat [missing_url; soft404_url; good_url] (cp "out")).2)
  ↔ missing_url ∈ valid_urls site [missing_url; soft404_url; good_url].
Proof.
  apply fetched_iff_surviving.
  - change (valid_urls site _) with [missing_url; good_url]. apply perm_swap.
  - change (valid_urls site _) with [missing_url; good_url].
    repeat constructor; by vm_compute.
Defined.

(** X14: a run ends with an exception exactly when, for some URL that
    survives validation and probing, the fetch returns a non-empty body on
    which the constructor of the parser raises; failed probes, failed
    fetches, empty bodies and failing queries never make a run raise. *)
Theorem main_raises_iff w order urls filename :
  order ≡ₚ seq 0 (length (valid_urls w urls)) →
  ((main w order urls filename).1 = TaskRaised
   ↔ ∃ v html, v ∈ valid_urls w urls
               ∧ (fetch_url w v).1 = Some html ∧ html ≠ []
               ∧ BeautifulSoup w html = None).
Proof.
  intros Hperm. split.
  - intros Hmain.
    destruct (raised_or_not w (valid_urls w urls)) as [Hall|Hex].
    + rewrite main_fst, (gather_tasks_returned w order _ Hperm Hall) in Hmain.
      destruct (is_empty (valid_urls w urls)); [done|].
      by destruct (is_empty (concat _)).
    + apply Exists_exists in Hex as (v & Hv & (html & ?)%scrape_data_raised_iff).
      by exists v, html.
  - intros (v & html & Hv & Hraise). apply main_task_raised; [done|].
    apply Exists_exists. exists v. split; [done|].
    apply scrape_data_raised_iff. by exists html.
Qed.

Lemma main_raises_iff_witness :
  (main rejecting_site [1; 0]%nat [flaky_url; good_url] (cp "out")).1 = TaskRaised
  ↔ ∃ v html, v ∈ valid_urls rejecting_site [flaky_url; good_url]
              ∧ (fetch_url rejecting_site v).1 = Some html ∧ html ≠ []
              ∧ BeautifulSoup rejecting_site html = None.
Proof.
  apply main_raises_iff.
  change (valid_urls rejecting_site _) with [flaky_url; good_url]. apply perm_swap.
Defined.

(** ** The command line (lines 162-180) *)

Lemma read_urls_cons w line rest :
  read_urls w (line :: rest) =
  if str_eqb (lower w (strip line)) (cp "done") then (Returned [], [Input line])
  else if startswith (strip line) (cp "http") then
    (match (read_urls w rest).1 with
     | Returned urls => Returned (strip line :: urls)
     | Raised => Raised
     end, Input line :: (read_urls w rest).2)
  else ((read_urls w rest).1,
        Input line :: PleaseEnterValidUrl :: (read_urls w rest).2).
Proof.
  unfold read_urls at 1; fold read_urls. cbv zeta.
  destruct (str_eqb _ _); [done|].
  destruct (read_urls w rest). by destruct (startswith _ _).
Qed.

Lemma flat_map_step {A B} (f : A → list B) x l :
  flat_map f (x :: l) = f x ++ flat_map f l.
Proof. reflexivity. Qed.

(** X15: the prompt loop stops at the first line that is "done" in any
    letter case once stripped, and the lines after it are never read; it
    returns, in order, the stripped lines before it that start with "http",
    prints one reminder for each other line, and keeps only strings without
    leading or trailing whitespace.  When no line is "done" the loop ends
    with the end-of-input exception. *)
Theorem read_urls_spec w pre :
  Forall (fun line => lower w (strip line) ≠ cp "done") pre →
  (read_urls w pre).1 = Raised
  ∧ ∀ d post,
      lower w (strip d) = cp "done" →
      read_urls w (pre ++ d :: post)
      = (Returned (filter (fun u => startswith u (cp "http") = true)
                          (map strip pre)),
         flat_map (fun line =>
                     Input line ::
                     (if startswith (strip line) (cp "http") then []
                      else [PleaseEnterValidUrl])) pre
         ++ [Input d])
      ∧ Forall trimmed (filter (fun u => startswith u (cp "http") = true)
                               (map strip pre)).
Proof.
  intros Hpre. split.
  - induction Hpre as [|line pre Hline _ IH]; [done|].
    rewrite read_urls_cons. unfold str_eqb.
    rewrite bool_decide_eq_false_2 by done.
    destruct (startswith _ _); simpl; by rewrite IH.
  - intros d post Hd. split.
    + induction Hpre as [|line pre Hline _ IH].
      * change ([] ++ d :: post) with (d :: post).
        rewrite read_urls_cons. unfold str_eqb.
        by rewrite bool_decide_eq_true_2.
      * rewrite <-app_comm_cons, read_urls_cons. unfold str_eqb.
        rewrite bool_decide_eq_false_2 by done. rewrite IH.
        change (map strip (line :: pre)) with (strip line :: map strip pre).
        rewrite filter_cons.
        rewrite flat_map_step.
        destruct (startswith (strip line) (cp "http")); case_decide;
          first [reflexivity | congruence].
    + apply Forall_forall. intros u [_ (line & -> & _)%list_elem_of_fmap]%list_elem_of_filter.
      apply strip_trimmed.
Qed.

Lemma read_urls_spec_witness :
  read_urls site [cp " http://a "; cp "ftp://b"; cp "  DoNe"; cp "http://never"]
  = (Returned [cp "http://a"],
     [Input (cp " http://a "); Input (cp "ftp://b"); PleaseEnterValidUrl;
      Input (cp "  DoNe")]).
Proof.
  apply (read_urls_spec site [cp " http://a "; cp "ftp://b"]); [|reflexivity].
  repeat constructor; by vm_compute.
Defined.

(** X16: the entry block never starts a run without a URL: when a run is
    started its URL list is not empty and the file name is the one of -o or
    "scraped_data.csv".  With URLs given by -u the standard input is not read
    and the URLs are passed on unchecked; URLs read at the prompt start with
    "http" and have no leading or trailing whitespace. *)
Theorem entry_run w order args_urls args_output stdin urls filename run :
  (entry w order args_urls args_output stdin).1 = Ran urls filename run →
  urls ≠ []
  ∧ filename = default default_output args_output
  ∧ run = main w order urls filename
  ∧ match args_urls with
    | Some (u :: l) =>
        urls = u :: l ∧ (entry w order args_urls args_output stdin).2 = []
    | _ => Forall (fun u => startswith u (cp "http") = true ∧ trimmed u) urls
    end.
Proof.
  assert (∀ l, (read_urls w stdin).1 = Returned l →
               Forall (fun u => startswith u (cp "http") = true ∧ trimmed u) l)
    as Hread.
  { induction stdin as [|line rest IH]; [done|]. intros l.
    rewrite read_urls_cons. destruct (str_eqb _ _).
    - intros [= <-]. constructor.
    - destruct (startswith (strip line) (cp "http")) eqn:Hs; [|by apply IH].
      destruct (read_urls w rest).1 as [l'|]; [|done]. intros [= <-].
      constructor; [|by apply IH]. split; [done | apply strip_trimmed]. }
  unfold entry.
  destruct args_urls as [[|u l]|]; simpl.
  2:{ intros [= <- <- <-]. done. }
  all: destruct (read_urls w stdin) as [[l|] es] eqn:Hr; simpl; [|done];
    destruct l as [|u0 l]; simpl; [done|]; intros [= <- <- <-];
    (repeat split; [done|]); by apply Hread.
Qed.

Lemma entry_run_witness :
  [cp "http://a"] ≠ []
  ∧ cp "scraped_data.csv" = default default_output None
  ∧ main site [0%nat] [cp "http://a"] (cp "scraped_data.csv")
    = main site [0%nat] [cp "http://a"] (cp "scraped_data.csv")
  ∧ Forall (fun u => startswith u (cp "http") = true ∧ trimmed u) [cp "http://a"].
Proof.
  apply (entry_run site [0%nat] None None [cp " http://a "; cp "done"]).
  reflexivity.
Defined.

(** ** Runs without data, and runs on two lists (lines 107-130) *)

Lemma concat_nil_iff {A} (ls : list (list A)) :
  concat ls = [] ↔ Forall (fun l => l = []) ls.
Proof.
  induction ls as [|l ls IH]; simpl.
  - split; [constructor | done].
  - split.
    + intros [-> Hls]%app_eq_nil. constructor; [done | by apply IH].
    + inversion_clear 1 as [|?? -> Hls]. by apply IH.
Qed.

(** X17: a run ends with "No data scraped" exactly when at least one URL
    survives validation and probing and the task of every surviving URL
    returns no record. *)
Theorem main_no_data_iff w order urls filename :
  order ≡ₚ seq 0 (length (valid_urls w urls)) →
  ((main w order urls filename).1 = NoData
   ↔ valid_urls w urls ≠ []
     ∧ Forall (fun v => (scrape_data w v).1 = Returned []) (valid_urls w urls)).
Proof.
  intros Hperm. rewrite main_fst.
  destruct (is_empty (valid_urls w urls)) eqn:Hempty.
  { split; [done|]. intros [Hne _]. by destruct (valid_urls w urls). }
  assert (valid_urls w urls ≠ []) as Hne by (by destruct (valid_urls w urls)).
  split.
  - intros Hmain. split; [done|].
    destruct (raised_or_not w (valid_urls w urls)) as [Hall|Hex].
    + rewrite (gather_tasks_returned w order _ Hperm Hall) in Hmain.
      destruct (concat (map (records_of w) (valid_urls w urls))) eqn:Hflat;
        [|done].
      apply concat_nil_iff in Hflat.
      pose proof (proj1 (Forall_forall _ _) Hflat) as Hflat'.
      pose proof (proj1 (Forall_forall _ _) Hall) as Hall'.
      apply Forall_forall. intros v Hv.
      specialize (Hflat' (records_of w v) (list_elem_of_fmap_2 _ _ _ Hv)).
      specialize (Hall' v Hv). simpl in Hflat'. unfold records_of in Hflat'.
      destruct (scrape_data w v).1 as [l|] eqn:Hs; [by subst|].
      exfalso. by apply Hall'.
    + rewrite gather_raised in Hmain; [done | by rewrite length_map |].
      apply Exists_exists in Hex as (v & Hv & Hr). apply Exists_exists.
      exists (scrape_data w v). split; [by apply list_elem_of_fmap_2 | done].
  - intros [_ Hall].
    assert (Forall (fun v => (scrape_data w v).1 ≠ Raised) (valid_urls w urls))
      as Hret.
    { rewrite Forall_forall in Hall. apply Forall_forall. intros v Hv.
      by rewrite (Hall v Hv). }
    rewrite (gather_tasks_returned w order _ Hperm Hret).
    assert (concat (map (records_of w) (valid_urls w urls)) = []) as ->; [|done].
    apply concat_nil_iff, Forall_forall.
    intros l (v & -> & Hv)%list_elem_of_fmap.
    rewrite Forall_forall in Hall. unfold records_of. by rewrite (Hall v Hv).
Qed.

Lemma main_no_data_iff_witness :
  (main site [1; 0]%nat [blank_url; missing_url] (cp "out")).1 = NoData
  ↔ valid_urls site [blank_url; missing_url] ≠ []
    ∧ Forall (fun v => (scrape_data site v).1 = Returned [])
             (valid_urls site [blank_url; missing_url]).
Proof.
  apply main_no_data_iff.
  change (valid_urls site _) with [blank_url; missing_url]. apply perm_swap.
Defined.

Lemma valid_urls_app w urls1 urls2 :
  valid_urls w (urls1 ++ urls2) = valid_urls w urls1 ++ valid_urls w urls2.
Proof. unfold valid_urls. by rewrite !check_urls_fst, filter_app. Qed.

(** X18: URLs do not influence each other: when no task raises, the dataset
    of a run on two lists put one after the other is the dataset of a run on
    the first list followed by the dataset of a run on the second, and the
    surviving URLs of the whole are those of the parts. *)
Theorem main_dataset_app w order order1 order2 urls1 urls2 filename :
  order ≡ₚ seq 0 (length (valid_urls w (urls1 ++ urls2))) →
  order1 ≡ₚ seq 0 (length (valid_urls w urls1)) →
  order2 ≡ₚ seq 0 (length (valid_urls w urls2)) →
  Forall (fun v => (scrape_data w v).1 ≠ Raised) (valid_urls w (urls1 ++ urls2)) →
  valid_urls w (urls1 ++ urls2) = valid_urls w urls1 ++ valid_urls w urls2
  ∧ dataset_of (main w order (urls1 ++ urls2) filename).1
    = dataset_of (main w order1 urls1 filename).1
      ++ dataset_of (main w order2 urls2 filename).1.
Proof.
  intros Hperm Hperm1 Hperm2 Hall. split; [apply valid_urls_app|].
  rewrite main_dataset by done.
  rewrite valid_urls_app in Hall. apply Forall_app in Hall as [Hall1 Hall2].
  rewrite !main_dataset by done.
  by rewrite valid_urls_app, flat_map_app.
Qed.

Lemma main_dataset_app_witness :
  dataset_of (main site [2; 1; 0]%nat
                ([good_url; soft404_url] ++ [missing_url; flaky_url]) (cp "out")).1
  = dataset_of (main site [0%nat] [good_url; soft404_url] (cp "out")).1
    ++ dataset_of (main site [1; 0]%nat [missing_url; flaky_url] (cp "out")).1.
Proof.
  apply (main_dataset_app site [2; 1; 0]%nat [0%nat] [1; 0]%nat
           [good_url; soft404_url] [missing_url; flaky_url] (cp "out")).
  - change (valid_urls site _) with [good_url; missing_url; flaky_url].
    symmetry. apply (Permutation_rev [0; 1; 2]%nat).
  - change (valid_urls site _) with [good_url]. reflexivity.
  - change (valid_urls site _) with [missing_url; flaky_url]. apply perm_swap.
  - change (valid_urls site _) with [good_url; missing_url; flaky_url].
    repeat constructor; by vm_compute.
Defined.
